(** * Field discovery and label matching of the form agent

    A shallow embedding of the container-aware engine (the variant
    with question containers and a fallback sweep): the page script of
    [extractFormFields], the page scripts of [fillForm], and the
    sequencing of [autoFillGoogleForm].

    Conventions of the model.
    - A rendered document is a tree of element and text nodes.  An
      element handle is the path of child indexes from the root; two
      handles denote the same element exactly when the paths are equal.
    - Strings are byte strings; [trim] removes the ASCII white space
      characters.
    - Every selector the scripts use is a list of compound selectors
      (no combinators), hence a predicate on one element.  Attribute
      values are compared as stored; the values of [id] attributes are
      assumed to need no escaping inside [label[for="..."]].
    - The scripts never change the tree.  What they change is the
      dirty value of a control, its checkedness, and the events they
      dispatch; these are the mutable part of a [page].  Listeners of
      the page itself and timing (the pauses) are not modelled. *)

From Stdlib Require Import String Ascii.
From stdpp Require Import base option list sorting strings gmap pretty.

Local Open Scope string_scope.
Local Open Scope list_scope.

(** ** Strings *)

Definition toLowerChar (c : ascii) : ascii :=
  let n := nat_of_ascii c in
  if ((65 <=? n) && (n <=? 90))%nat then ascii_of_nat (n + 32) else c.

Definition toUpperChar (c : ascii) : ascii :=
  let n := nat_of_ascii c in
  if ((97 <=? n) && (n <=? 122))%nat then ascii_of_nat (n - 32) else c.

Fixpoint mapString (f : ascii → ascii) (s : string) : string :=
  match s with
  | EmptyString => EmptyString
  | String c s' => String (f c) (mapString f s')
  end.

Definition toLowerCase : string → string := mapString toLowerChar.
Definition toUpperCase : string → string := mapString toUpperChar.

Fixpoint trimStart (s : string) : string :=
  match s with
  | String c s' => if Ascii.is_space c then trimStart s' else s
  | EmptyString => EmptyString
  end.

Definition trim (s : string) : string :=
  String.rev (trimStart (String.rev (trimStart s))).

(** [includes s t] is [s.includes(t)]: [t] occurs in [s]. *)
Fixpoint includes (s t : string) : bool :=
  if String.prefix t s then true
  else match s with
       | EmptyString => false
       | String _ s' => includes s' t
       end.

(** A string that may be [null] is truthy when it is there and not
    empty. *)
Definition truthy (a : option string) : option string :=
  match a with
  | Some s => if decide (s = "") then None else Some s
  | None => None
  end.

(** [a || b] on such strings. *)
Definition orElse (a : option string) (b : string) : string :=
  default b (truthy a).

(** The label test of the application scripts:
    [label.includes(x) || x.includes(label)]. *)
Definition matchesEitherWay (label x : string) : bool :=
  includes label x || includes x label.

(** ** The document *)

Definition path := list nat.

Record Element := mkElement {
  tagName : string;                     (* upper case, as the DOM gives it *)
  attributes : gmap string string
}.

Unset Elimination Schemes.
Inductive node :=
| Text (data : string)
| Elem (e : Element) (childNodes : list node).
Set Elimination Schemes.

Section node_ind.
Variable P : node → Prop.
Hypothesis P_text : ∀ s, P (Text s).
Hypothesis P_elem : ∀ e ks, Forall P ks → P (Elem e ks).

Fixpoint node_ind (n : node) : P n :=
  match n with
  | Text s => P_text s
  | Elem e ks =>
      P_elem e ks
        ((fix all (l : list node) : Forall P l :=
            match l with
            | [] => Forall_nil_2 P
            | k :: l' => Forall_cons_2 P k l' (node_ind k) (all l')
            end) ks)
  end.
End node_ind.

Fixpoint textContent (n : node) : string :=
  match n with
  | Text s => s
  | Elem _ ks => foldr (λ k acc, textContent k +:+ acc) "" ks
  end.

Fixpoint subtree (n : node) (p : path) : option node :=
  match p with
  | [] => Some n
  | i :: p' =>
      match n with
      | Elem _ ks => match ks !! i with
                     | Some k => subtree k p'
                     | None => None
                     end
      | Text _ => None
      end
  end.

(** The elements of a tree in document order, the root first. *)
Fixpoint allElements (n : node) : list path :=
  match n with
  | Text _ => []
  | Elem _ ks =>
      [] :: (fix children (i : nat) (l : list node) : list path :=
               match l with
               | [] => []
               | k :: l' => map (cons i) (allElements k) ++ children (S i) l'
               end) 0 ks
  end.

(** The same listing for the children of an element, the first child
    having index [i]. *)
Fixpoint childElements (i : nat) (ks : list node) : list path :=
  match ks with
  | [] => []
  | k :: ks' => map (cons i) (allElements k) ++ childElements (S i) ks'
  end.

(** Document order on handles: an element comes before its
    descendants, and a subtree before the subtrees of later siblings. *)
Fixpoint precedes (p q : path) : Prop :=
  match p, q with
  | [], _ :: _ => True
  | i :: p', j :: q' => (i < j)%nat ∨ (i = j ∧ precedes p' q')
  | _, [] => False
  end.

Definition elementAt (doc : node) (p : path) : option Element :=
  match subtree doc p with
  | Some (Elem e _) => Some e
  | _ => None
  end.

Definition getAttribute (doc : node) (p : path) (a : string) : option string :=
  elementAt doc p ≫= λ e, attributes e !! a.

Definition textOf (doc : node) (p : path) : string :=
  from_option textContent "" (subtree doc p).

Definition classList (e : Element) : list string :=
  String.words (default "" (attributes e !! "class")).

(** ** Selectors *)

Definition selector := Element → bool.

Definition hasTag (t : string) : selector :=
  λ e, bool_decide (toLowerCase (tagName e) = t).
Definition hasClass (c : string) : selector :=
  λ e, bool_decide (c ∈ classList e).
Definition attrIs (a v : string) : selector :=
  λ e, bool_decide (attributes e !! a = Some v).
Definition attrContains (a v : string) : selector :=
  λ e, from_option (λ x, includes x v) false (attributes e !! a).
Definition hasAttr (a : string) : selector :=
  λ e, bool_decide (is_Some (attributes e !! a)).
Definition anyOf (l : list selector) : selector :=
  λ e, existsb (λ s, s e) l.
Definition both (s1 s2 : selector) : selector :=
  λ e, s1 e && s2 e.

Definition inputOfType (t : string) : selector :=
  both (hasTag "input") (attrIs "type" t).

(** [[data-params*="question"], .freebirdFormviewerViewItemsItemItem, .m2] *)
Definition questionContainer : selector :=
  anyOf [attrContains "data-params" "question";
         hasClass "freebirdFormviewerViewItemsItemItem";
         hasClass "m2"].

(** [.freebirdFormviewerViewItemsItemItemTitle, .m7, h1, ..., h6] *)
Definition questionTitle : selector :=
  anyOf [hasClass "freebirdFormviewerViewItemsItemItemTitle";
         hasClass "m7";
         hasTag "h1"; hasTag "h2"; hasTag "h3";
         hasTag "h4"; hasTag "h5"; hasTag "h6"].

Definition radioInput : selector := inputOfType "radio".
Definition checkboxInput : selector := inputOfType "checkbox".
Definition selectControl : selector := hasTag "select".

(** [input[type="text"], input[type="email"], input[type="tel"], textarea] *)
Definition textControl : selector :=
  anyOf [inputOfType "text"; inputOfType "email"; inputOfType "tel";
         hasTag "textarea"].

(** The same list followed by [input:not([type])], as discovery has it. *)
Definition textControlOrUntyped : selector :=
  anyOf [inputOfType "text"; inputOfType "email"; inputOfType "tel";
         hasTag "textarea";
         both (hasTag "input") (λ e, negb (hasAttr "type" e))].

Definition labelElement : selector := hasTag "label".
Definition labelFor (id : string) : selector :=
  both (hasTag "label") (attrIs "for" id).

(** ** Queries *)

Definition matches (doc : node) (s : selector) (p : path) : bool :=
  from_option s false (elementAt doc p).

(** [document.querySelectorAll(s)] *)
Definition documentQuerySelectorAll (doc : node) (s : selector) : list path :=
  filter (λ p, matches doc s p) (allElements doc).

(** [c.querySelectorAll(s)]: the descendants of [c], not [c] itself. *)
Definition querySelectorAll (doc : node) (c : path) (s : selector) : list path :=
  filter (λ p, matches doc s p)
         (map (app c) (tail (from_option allElements [] (subtree doc c)))).

Definition documentQuerySelector (doc : node) (s : selector) : option path :=
  head (documentQuerySelectorAll doc s).
Definition querySelector (doc : node) (c : path) (s : selector) : option path :=
  head (querySelectorAll doc c s).

(** The element itself, then its parent, and so on up to the root. *)
Definition inclusiveAncestors (p : path) : list path :=
  map (λ k, take k p) (reverse (seq 0 (S (length p)))).

(** [el.closest(s)] *)
Definition closest (doc : node) (s : selector) (p : path) : option path :=
  head (filter (λ q, matches doc s q) (inclusiveAncestors p)).

(** The element siblings before [p], the nearest first: what repeated
    [previousElementSibling] visits. *)
Definition previousElementSiblings (doc : node) (p : path) : list path :=
  match reverse p with
  | [] => []
  | i :: rq =>
      filter (λ q, is_Some (elementAt doc q))
             (map (λ j, reverse rq ++ [j]) (reverse (seq 0 i)))
  end.

Definition parentOf (p : path) : path := take (length p - 1) p.

(** ** What the scripts read from an element *)

(** [el.textContent?.trim() || ''] of an element that exists. *)
Definition trimmedText (doc : node) (p : path) : string :=
  trim (textOf doc p).

(** IDL properties that reflect content attributes. *)
Definition nameProperty (doc : node) (p : path) : string :=
  default "" (getAttribute doc p "name").
Definition requiredProperty (doc : node) (p : path) : bool :=
  matches doc (hasAttr "required") p.
Definition disabledProperty (doc : node) (p : path) : bool :=
  matches doc (hasAttr "disabled") p.
(** [value] of a radio or checkbox: the attribute, or ["on"]. *)
Definition choiceValueProperty (doc : node) (p : path) : string :=
  default "on" (getAttribute doc p "value").

Fixpoint join (sep : string) (l : list string) : string :=
  match l with
  | [] => ""
  | [s] => s
  | s :: l' => s +:+ sep +:+ join sep l'
  end.

(** [option.text]: white space stripped and collapsed. *)
Definition optionTextProperty (doc : node) (o : path) : string :=
  join " " (String.words (textOf doc o)).
(** [option.value]: the attribute, or the text. *)
Definition optionValueProperty (doc : node) (o : path) : string :=
  default (optionTextProperty doc o) (getAttribute doc o "value").

(** [select.options]: option children, and option children of optgroup
    children. *)
Definition selectOptions (doc : node) (sel : path) : list path :=
  filter (λ o, bool_decide (parentOf o = sel)
               || (matches doc (hasTag "optgroup") (parentOf o)
                   && bool_decide (parentOf (parentOf o) = sel)))
         (querySelectorAll doc sel (hasTag "option")).

(** ** Label inference *)

(** [label[for="<id>"]], tried when the control has a non-empty id. *)
Definition labelByFor (doc : node) (el : path) : option string :=
  match truthy (getAttribute doc el "id") with
  | Some id => trimmedText doc <$> documentQuerySelector doc (labelFor id)
  | None => None
  end.

(** [el.closest('label')] *)
Definition labelByAncestor (doc : node) (el : path) : option string :=
  trimmedText doc <$> closest doc labelElement el.

(** The walk over [previousElementSibling]: the nearest earlier sibling
    that is a LABEL or carries the class [question]. *)
Definition labelBySibling (doc : node) (el : path) : option string :=
  trimmedText doc <$>
    head (filter (λ q, matches doc (λ e, bool_decide (tagName e = "LABEL")
                                         || hasClass "question" e) q)
                 (previousElementSiblings doc el)).

(** The helper of the discovery script. *)
Definition findLabelForInput (doc : node) (input : path) : string :=
  match labelByFor doc input with
  | Some l => l
  | None =>
  match labelByAncestor doc input with
  | Some l => l
  | None =>
  match labelBySibling doc input with
  | Some l => l
  | None =>
  match truthy (getAttribute doc input "aria-label") with
  | Some ariaLabel => ariaLabel
  | None =>
  match truthy (getAttribute doc input "placeholder") with
  | Some placeholder => placeholder
  | None => "Unknown field"
  end end end end end.

(** The second helper of the discovery script, declared but not called
    by the container-aware discovery: the heading of an enclosing
    group, or else the label of the control. *)
Definition findGroupLabel (doc : node) (input : path) : string :=
  let group := anyOf [attrIs "role" "group"; hasClass "form-group";
                      hasClass "question-group"] in
  let heading := anyOf [hasTag "h1"; hasTag "h2"; hasTag "h3"; hasTag "h4";
                        hasTag "h5"; hasTag "h6"; hasClass "question-title"] in
  match closest doc group input ≫= λ container,
        querySelector doc container heading with
  | Some h => trimmedText doc h
  | None => findLabelForInput doc input
  end.

(** ** Discovery *)

Record FormField := {
  type : string;
  label : string;
  name : string;
  required : bool;
  options : option (list string);
  element : path
}.

Definition questionTextAt (doc : node) (container : path)
    (containerIndex : nat) : string :=
  orElse (trimmedText doc <$> querySelector doc container questionTitle)
         ("Question " +:+ pretty (containerIndex + 1)).

Definition radioOptionText (doc : node) (input : path) : string :=
  orElse (trimmedText doc <$> closest doc labelElement input)
    (orElse (getAttribute doc input "aria-label")
       (orElse (Some (choiceValueProperty doc input)) "Option")).

Definition checkboxText (doc : node) (checkbox : path)
    (checkboxIndex : nat) : string :=
  orElse (trimmedText doc <$> closest doc labelElement checkbox)
    (orElse (getAttribute doc checkbox "aria-label")
       ("Checkbox " +:+ pretty (checkboxIndex + 1))).

Definition textKind (doc : node) (input : path) : string :=
  if matches doc (hasTag "textarea") input then "textarea" else "text".

Section container.
Variables (doc : node) (containerIndex : nat) (container : path).

Let questionText := questionTextAt doc container containerIndex.

Definition radioGroup : list FormField :=
  let radioInputs := querySelectorAll doc container radioInput in
  match radioInputs with
  | [] => []
  | first :: _ =>
      [ {| type := "radio";
           label := questionText;
           name := "question_" +:+ pretty containerIndex;
           required := false;
           options := Some (radioOptionText doc <$> radioInputs);
           element := first |} ]
  end.

Definition checkboxFields : list FormField :=
  imap (λ checkboxIndex checkbox,
          {| type := "checkbox";
             label := questionText +:+ " - "
                      +:+ checkboxText doc checkbox checkboxIndex;
             name := "question_" +:+ pretty containerIndex
                     +:+ "_checkbox_" +:+ pretty checkboxIndex;
             required := false;
             options := None;
             element := checkbox |})
       (querySelectorAll doc container checkboxInput).

Definition textFields : list FormField :=
  imap (λ inputIndex input,
          {| type := textKind doc input;
             label := questionText;
             name := "question_" +:+ pretty containerIndex
                     +:+ "_text_" +:+ pretty inputIndex;
             required := requiredProperty doc input;
             options := None;
             element := input |})
       (querySelectorAll doc container textControlOrUntyped).

Definition selectFields : list FormField :=
  imap (λ selectIndex select,
          {| type := "select";
             label := questionText;
             name := "question_" +:+ pretty containerIndex
                     +:+ "_select_" +:+ pretty selectIndex;
             required := requiredProperty doc select;
             options := Some (optionTextProperty doc
                                <$> selectOptions doc select);
             element := select |})
       (querySelectorAll doc container selectControl).

(** One turn of [questionContainers.forEach]. *)
Definition containerFields : list FormField :=
  radioGroup ++ checkboxFields ++ textFields ++ selectFields.
End container.

(** One turn of [allInputs.forEach] in the fallback. *)
Definition fallbackField (doc : node) (index : nat) (input : path)
    : list FormField :=
  match closest doc questionContainer input with
  | Some _ => []
  | None =>
      [ {| type := textKind doc input;
           label := findLabelForInput doc input;
           name := orElse (Some (nameProperty doc input))
                          ("field_" +:+ pretty index);
           required := requiredProperty doc input;
           options := None;
           element := input |} ]
  end.

(** The controls a container's four queries find: what the container
    claims. *)
Definition containerControls (doc : node) (container : path) : list path :=
  querySelectorAll doc container radioInput
  ++ querySelectorAll doc container checkboxInput
  ++ querySelectorAll doc container textControlOrUntyped
  ++ querySelectorAll doc container selectControl.

Definition claimedControls (doc : node) : list path :=
  concat (containerControls doc
            <$> documentQuerySelectorAll doc questionContainer).

Definition containerPass (doc : node) : list FormField :=
  concat (imap (containerFields doc)
               (documentQuerySelectorAll doc questionContainer)).

Definition fallbackSweep (doc : node) : list FormField :=
  concat (imap (fallbackField doc)
               (documentQuerySelectorAll doc textControlOrUntyped)).

Definition extractFormFields (doc : node) : list FormField :=
  containerPass doc ++ fallbackSweep doc.

(** ** The value mapping *)

(** A value read from the object the provider's answer parses to.
    [JOther] stands for any other value (a number, an array, an object,
    a function), carried with what [String(...)] makes of it. *)
Inductive jsval :=
| JUndefined
| JNull
| JBool (b : bool)
| JString (s : string)
| JOther (shown : string).

(** [String(value)] *)
Definition toString (v : jsval) : string :=
  match v with
  | JUndefined => "undefined"
  | JNull => "null"
  | JBool true => "true"
  | JBool false => "false"
  | JString s => s
  | JOther shown => shown
  end.

(** What a parsed object inherits: a read of a key it does not own
    falls through to [Object.prototype]. *)
Definition inheritedProperty (key : string) : jsval :=
  if decide (key = "__proto__") then JOther "[object Object]"
  else if decide (key = "constructor")
  then JOther "function Object() { [native code] }"
  else if decide (key ∈ ["toString"; "toLocaleString"; "valueOf";
                         "hasOwnProperty"; "isPrototypeOf";
                         "propertyIsEnumerable";
                         "__defineGetter__"; "__defineSetter__";
                         "__lookupGetter__"; "__lookupSetter__"])
  then JOther ("function " +:+ key +:+ "() { [native code] }")
  else JUndefined.

(** [formData[key]] *)
Definition propertyOf (formData : gmap string jsval) (key : string) : jsval :=
  match formData !! key with
  | Some v => v
  | None => inheritedProperty key
  end.

(** ** The live page *)

Record page := Page {
  document : node;
  dirtyValue : gmap path string;        (* values assigned by script *)
  checkedness : gset path;              (* the controls that are checked *)
  dispatched : list (path * string)     (* events, oldest first *)
}.

Definition setValue (p : path) (v : string) (pg : page) : page :=
  {| document := document pg;
     dirtyValue := <[p := v]> (dirtyValue pg);
     checkedness := checkedness pg;
     dispatched := dispatched pg |}.

Definition setCheckedness (s : gset path) (pg : page) : page :=
  {| document := document pg;
     dirtyValue := dirtyValue pg;
     checkedness := s;
     dispatched := dispatched pg |}.

Definition dispatchEvent (p : path) (ev : string) (pg : page) : page :=
  {| document := document pg;
     dirtyValue := dirtyValue pg;
     checkedness := checkedness pg;
     dispatched := dispatched pg ++ [(p, ev)] |}.

Definition checkedProperty (pg : page) (p : path) : bool :=
  bool_decide (p ∈ checkedness pg).

(** The other radios of the group of [p]: same non-empty name, same
    form owner. *)
Definition radioGroupOf (doc : node) (p : path) : list path :=
  filter (λ q, q ≠ p
               ∧ nameProperty doc p ≠ ""
               ∧ nameProperty doc q = nameProperty doc p
               ∧ closest doc (hasTag "form") q = closest doc (hasTag "form") p)
         (documentQuerySelectorAll doc radioInput).

(** [el.click()] on an input: nothing on a disabled control; a checkbox
    toggles; a radio becomes checked and the rest of its group
    unchecked; a change of checkedness fires [input] and [change]. *)
Definition click (p : path) (pg : page) : page :=
  let doc := document pg in
  if disabledProperty doc p then pg
  else if matches doc checkboxInput p then
    let toggled := if checkedProperty pg p
                   then checkedness pg ∖ {[p]}
                   else checkedness pg ∪ {[p]} in
    dispatchEvent p "change"
      (dispatchEvent p "input"
         (setCheckedness toggled (dispatchEvent p "click" pg)))
  else if matches doc radioInput p then
    if checkedProperty pg p then dispatchEvent p "click" pg
    else
      dispatchEvent p "change"
        (dispatchEvent p "input"
           (setCheckedness
              ((checkedness pg ∖ list_to_set (radioGroupOf doc p)) ∪ {[p]})
              (dispatchEvent p "click" pg)))
  else dispatchEvent p "click" pg.

(** ** Application scripts *)

(** The helper as the text script declares it. *)
Module TextScript.
Definition findLabelText (doc : node) (el : path) : string :=
  match labelByFor doc el with
  | Some l => l
  | None =>
  match labelByAncestor doc el with
  | Some l => l
  | None =>
  match truthy (getAttribute doc el "aria-label") with
  | Some ariaLabel => ariaLabel
  | None =>
  match truthy (getAttribute doc el "placeholder") with
  | Some placeholder => placeholder
  | None => "Unknown field"
  end end end end.

Definition find (doc : node) (fieldLabel : string) : option path :=
  List.find (λ el, matchesEitherWay (findLabelText doc el) fieldLabel)
            (documentQuerySelectorAll doc textControl).

Definition run (fieldLabel fieldValue : string) (pg : page) : page :=
  match find (document pg) fieldLabel with
  | Some input =>
      dispatchEvent input "change"
        (dispatchEvent input "input" (setValue input fieldValue pg))
  | None => pg
  end.
End TextScript.

Module RadioScript.
Definition ownLabel (doc : node) (el : path) : string :=
  orElse (trimmedText doc <$> closest doc labelElement el) "".

Definition questionText (doc : node) (el : path) : string :=
  orElse (closest doc questionContainer el ≫= λ container,
            trimmedText doc <$> querySelector doc container questionTitle)
         "".

Definition find (doc : node) (fieldLabel fieldValue : string)
    : option path :=
  List.find (λ el, (includes (ownLabel doc el) fieldValue
                    || includes fieldValue (ownLabel doc el))
                   && includes (questionText doc el) fieldLabel)
            (documentQuerySelectorAll doc radioInput).

Definition run (fieldLabel fieldValue : string) (pg : page) : page :=
  match find (document pg) fieldLabel fieldValue with
  | Some radio => click radio pg
  | None => pg
  end.
End RadioScript.

(** The helper as the checkbox script declares it (the select script
    declares the same one): no placeholder step. *)
Module CheckboxScript.
Definition findLabelText (doc : node) (el : path) : string :=
  match labelByFor doc el with
  | Some l => l
  | None =>
  match labelByAncestor doc el with
  | Some l => l
  | None =>
  match truthy (getAttribute doc el "aria-label") with
  | Some ariaLabel => ariaLabel
  | None => "Unknown field"
  end end end.

Definition find (doc : node) (fieldLabel : string) : option path :=
  List.find (λ el, matchesEitherWay (findLabelText doc el) fieldLabel)
            (documentQuerySelectorAll doc checkboxInput).

Definition run (fieldLabel : string) (shouldCheck : bool) (pg : page)
    : page :=
  match find (document pg) fieldLabel with
  | Some checkbox =>
      let isChecked := checkedProperty pg checkbox in
      if bool_decide (isChecked ≠ shouldCheck) then click checkbox pg
      else pg
  | None => pg
  end.
End CheckboxScript.

Module SelectScript.
Definition findLabelText := CheckboxScript.findLabelText.

Definition find (doc : node) (fieldLabel : string) : option path :=
  List.find (λ el, matchesEitherWay (findLabelText doc el) fieldLabel)
            (documentQuerySelectorAll doc selectControl).

(** [select.value = v] selects the first option with that value, or
    none; the value read back is [v] or the empty string. *)
Definition assigned (doc : node) (select : path) (v : string) : string :=
  if bool_decide (v ∈ optionValueProperty doc <$> selectOptions doc select)
  then v else "".

Definition run (fieldLabel fieldValue : string) (pg : page) : page :=
  match find (document pg) fieldLabel with
  | Some select =>
      dispatchEvent select "change"
        (setValue select (assigned (document pg) select fieldValue) pg)
  | None => pg
  end.
End SelectScript.

(** [field.options && field.options.includes(String(value))] *)
Definition offers (field : FormField) (value : jsval) : bool :=
  match options field with
  | Some opts => bool_decide (toString value ∈ opts)
  | None => false
  end.

(** The [switch] of [fillForm] for one field and its value. *)
Definition fillField (field : FormField) (value : jsval) (pg : page) : page :=
  if decide (type field = "text" ∨ type field = "textarea") then
    TextScript.run (label field) (toString value) pg
  else if decide (type field = "radio") then
    if offers field value
    then RadioScript.run (label field) (toString value) pg
    else pg
  else if decide (type field = "checkbox") then
    match value with
    | JBool shouldCheck => CheckboxScript.run (label field) shouldCheck pg
    | _ => pg
    end
  else if decide (type field = "select") then
    if offers field value
    then SelectScript.run (label field) (toString value) pg
    else pg
  else pg.

Definition nullish (v : jsval) : bool :=
  match v with
  | JUndefined | JNull => true
  | _ => false
  end.

Fixpoint fillForm (fields : list FormField) (formData : gmap string jsval)
    (pg : page) : page :=
  match fields with
  | [] => pg
  | field :: rest =>
      let value := propertyOf formData (label field) in
      if nullish value then fillForm rest formData pg
      else fillForm rest formData (fillField field value pg)
  end.

(** ** Asking for the value mapping *)

Definition nl : string := String (ascii_of_nat 10) EmptyString.
Definition quote : string := String (ascii_of_nat 34) EmptyString.
Definition quoted (s : string) : string := quote +:+ s +:+ quote.

Definition fieldDescription (field : FormField) : string :=
  "- " +:+ toUpperCase (type field) +:+ ": " +:+ quoted (label field)
  +:+ (if required field then " (required)" else "")
  +:+ match options field with
      | Some opts => " Options: [" +:+ join ", " opts +:+ "]"
      | None => ""
      end.

Definition prompt (fields : list FormField) (context : option string)
    : string :=
  join nl
    [ "";
      "You are an intelligent form-filling assistant. Please provide appropriate values for the following form fields based on your knowledge and the context provided.";
      "";
      "Context: "
        +:+ orElse context
              "General form filling with realistic, appropriate data";
      "";
      "Form Fields:";
      join nl (fieldDescription <$> fields);
      "";
      "Please respond with a JSON object where each key is the field label and the value is the appropriate data to fill in. For multiple choice fields (radio/select), choose the most appropriate option. For checkboxes, return true/false. For text fields, provide realistic sample data.";
      "";
      "Example format:";
      "{";
      "  " +:+ quoted "Full Name" +:+ ": " +:+ quoted "John Doe" +:+ ",";
      "  " +:+ quoted "Email" +:+ ": " +:+ quoted "john.doe@example.com"
           +:+ ",";
      "  " +:+ quoted "Age" +:+ ": " +:+ quoted "25" +:+ ",";
      "  " +:+ quoted "Country" +:+ ": " +:+ quoted "United States" +:+ ",";
      "  " +:+ quoted "Subscribe to newsletter" +:+ ": true";
      "}";
      "";
      "Respond only with the JSON object, no additional text.";
      "    " ].

(** The suffix of [s] that starts at the first [c]. *)
Fixpoint dropUntil (c : ascii) (s : string) : option string :=
  match s with
  | EmptyString => None
  | String a s' => if decide (a = c) then Some s else dropUntil c s'
  end.

(** [text.match(/\{[\s\S]*\}/)]: from the first opening brace to the
    last closing brace after it. *)
Definition jsonMatch (text : string) : option string :=
  dropUntil "{"%char text ≫= λ fromBrace,
  String.rev <$> dropUntil "}"%char (String.rev fromBrace).

(** ** The run *)

Inductive action :=
| Launch
| Navigate (url : string)
| Discover
| NoFieldsNotice
| AskModel (text : string)
| Apply.

Inductive completion := Returned | Thrown.

Section run.
(** The collaborators outside the engine: the browser, the loading of
    a URL, the generative model, and the JSON parser.  [None] is a
    thrown error. *)
Variable launches : bool.
Variable goto : string → option page.
Variable generateContent : string → option string.
Variable JSON_parse : string → option (gmap string jsval).

Definition generateFormData (fields : list FormField)
    (context : option string) : option (gmap string jsval) :=
  generateContent (prompt fields context) ≫= λ text,
  jsonMatch text ≫= JSON_parse.

Definition autoFillGoogleForm (formUrl : string) (context : option string)
    : completion * list action * option page :=
  if negb launches then (Thrown, [Launch], None)
  else
    match goto formUrl with
    | None => (Thrown, [Launch; Navigate formUrl], None)
    | Some pg =>
        let fields := extractFormFields (document pg) in
        if decide (length fields = 0) then
          (Returned, [Launch; Navigate formUrl; Discover; NoFieldsNotice],
           Some pg)
        else
          let asked := [Launch; Navigate formUrl; Discover;
                        AskModel (prompt fields context)] in
          match generateFormData fields context with
          | None => (Thrown, asked, Some pg)
          | Some formData =>
              (Returned, asked ++ [Apply],
               Some (fillForm fields formData pg))
          end
    end.
End run.

(** ** Building documents *)

Definition tag (t : string) (attrs : list (string * string))
    (kids : list node) : node :=
  Elem (mkElement (toUpperCase t) (list_to_map attrs)) kids.

Definition freshPage (doc : node) : page :=
  {| document := doc; dirtyValue := ∅; checkedness := ∅; dispatched := [] |}.

(** A form with one question container (a heading, three radios and a
    checkbox, each wrapped in its label) and, outside any container, a
    text input that follows its label. *)
Definition colorForm : node :=
  tag "html" [] [
    tag "body" [] [
      tag "div" [("class", "m2")] [
        tag "h2" [] [Text "Favorite color"];
        tag "label" [] [tag "input" [("type", "radio"); ("name", "c")] [];
                        Text "Red"];
        tag "label" [] [tag "input" [("type", "radio"); ("name", "c")] [];
                        Text "Green"];
        tag "label" [] [tag "input" [("type", "radio"); ("name", "c")] [];
                        Text "Blue"];
        tag "label" [] [tag "input" [("type", "checkbox")] [];
                        Text "Agree"]
      ];
      tag "div" [] [
        tag "label" [] [Text "Name"];
        tag "input" [("type", "text"); ("placeholder", "Your name")] []
      ]
    ]
  ].

Definition colorRadios : FormField :=
  {| type := "radio"; label := "Favorite color"; name := "question_0";
     required := false; options := Some ["Red"; "Green"; "Blue"];
     element := [0; 0; 1; 0] |}.

Definition agreeCheckbox : FormField :=
  {| type := "checkbox"; label := "Favorite color - Agree";
     name := "question_0_checkbox_0"; required := false; options := None;
     element := [0; 0; 4; 0] |}.

Definition nameInput : FormField :=
  {| type := "text"; label := "Name"; name := "field_0";
     required := false; options := None; element := [0; 1; 1] |}.

(** A document without any control. *)
Definition emptyDocument : node := tag "html" [] [tag "body" [] []].

(** A container without a title: discovery names the group
    [Question 1], the radio script reads the empty title, and although
    the empty title is contained in the label no radio is clicked. *)
Definition untitledForm : node :=
  tag "html" [] [
    tag "body" [] [
      tag "div" [("class", "m2")] [
        tag "label" [] [tag "input" [("type", "radio"); ("name", "c")] [];
                        Text "Yes"];
        tag "label" [] [tag "input" [("type", "radio"); ("name", "c")] [];
                        Text "No"]
      ]
    ]
  ].

(** Two text controls outside any container that carry one name. *)
Definition twinNames : node :=
  tag "html" [] [
    tag "body" [] [
      tag "input" [("type", "text"); ("name", "email")] [];
      tag "input" [("type", "email"); ("name", "email")] []
    ]
  ].

(** ** Notions used in the statements *)

(** Decimal numerals consist of digits, so a numeral followed by
    nothing or by an underscore can be read back in one way only. *)
Fixpoint digits (s : string) : Prop :=
  match s with
  | EmptyString => True
  | String c s' => is_Some (Ascii.is_nat c) ∧ digits s'
  end.

Definition separated (r : string) : Prop :=
  r = "" ∨ ∃ r', r = String "_" r'.

(** What follows [question_<containerIndex>] in the identifiers of one
    container, in the order of its descriptors. *)
Definition suffixes (doc : node) (container : path) : list string :=
  match querySelectorAll doc container radioInput with
  | [] => []
  | _ :: _ => [""]
  end
  ++ imap (λ j _, "_checkbox_" +:+ pretty j)
          (querySelectorAll doc container checkboxInput)
  ++ imap (λ j _, "_text_" +:+ pretty j)
          (querySelectorAll doc container textControlOrUntyped)
  ++ imap (λ j _, "_select_" +:+ pretty j)
          (querySelectorAll doc container selectControl).

(** The descriptors of the sweep whose control has no name. *)
Definition unnamed (doc : node) (f : FormField) : Prop :=
  nameProperty doc (element f) = "".

Global Instance unnamed_dec doc f : Decision (unnamed doc f).
Proof. unfold unnamed. apply _. Defined.

(** A question container inside another, an input that itself carries
    the container class, and a radio and an input outside any
    container. *)
Definition nestedForm : node :=
  tag "html" [] [
    tag "body" [] [
      tag "div" [("class", "m2")] [
        tag "h2" [] [Text "Outer"];
        tag "div" [("class", "m2")] [
          tag "h3" [] [Text "Inner"];
          tag "input" [("type", "text")] []
        ]
      ];
      tag "input" [("type", "text"); ("class", "m2")] [];
      tag "input" [("type", "radio"); ("name", "r")] [];
      tag "input" [("type", "tel"); ("aria-label", "Phone")] []
    ]
  ].

(** One question container with a radio group, a text input and a
    select. *)
Definition planForm : node :=
  tag "html" [] [
    tag "body" [] [
      tag "div" [("class", "m2")] [
        tag "div" [("class", "m7")] [Text "Plan"];
        tag "label" [] [tag "input" [("type", "radio"); ("name", "p")] [];
                        Text "Basic"];
        tag "label" [] [tag "input" [("type", "radio"); ("name", "p")] [];
                        Text "Pro"];
        tag "input" [("type", "text"); ("aria-label", "Plan notes")] [];
        tag "select" [("aria-label", "Plan term")] [
          tag "option" [("value", "m")] [Text "Monthly"];
          tag "option" [] [Text "Yearly"]
        ]
      ]
    ]
  ].


Definition planNotes : FormField :=
  {| type := "text"; label := "Plan"; name := "question_0_text_0";
     required := false; options := None; element := [0; 0; 3] |}.

Definition planTerm : FormField :=
  {| type := "select"; label := "Plan"; name := "question_0_select_0";
     required := false; options := Some ["Monthly"; "Yearly"];
     element := [0; 0; 4] |}.

(** [pg'] differs from [pg] at most in the values of text controls and
    selects, in the checkedness of checkboxes and radios, and by events
    added at the end. *)
Definition touchesOnlyControls (pg pg' : page) : Prop :=
  document pg' = document pg
  ∧ (∀ p, dirtyValue pg' !! p ≠ dirtyValue pg !! p →
          matches (document pg) textControl p = true
          ∨ matches (document pg) selectControl p = true)
  ∧ (∀ p, checkedProperty pg' p ≠ checkedProperty pg p →
          matches (document pg) checkboxInput p = true
          ∨ matches (document pg) radioInput p = true)
  ∧ ∃ events, dispatched pg' = dispatched pg ++ events.

(** [input:not([type])] *)
Definition untypedInput : selector :=
  both (hasTag "input") (λ e, negb (hasAttr "type" e)).

(** A text input wrapped in a label without text, and after it, in a
    block of its own, a text input with an accessible name. *)
Definition emptyLabelForm : node :=
  tag "html" [] [
    tag "label" [] [tag "input" [("type", "text")] []];
    tag "div" [] [tag "input" [("type", "text"); ("aria-label", "City")] []]
  ].

Definition cityInput : FormField :=
  {| type := "text"; label := "City"; name := "field_1";
     required := false; options := None; element := [1; 0] |}.

(** A label bound to its control by [for], standing right before it:
    the sibling walk would find that label too. *)
Definition boundLabelForm : node :=
  tag "html" [] [
    tag "body" [] [
      tag "label" [("for", "x")] [Text "Name"];
      tag "input" [("id", "x"); ("type", "text")] []
    ]
  ].

(** [c] occurs in [s]. *)
Fixpoint occurs (c : ascii) (s : string) : bool :=
  match s with
  | EmptyString => false
  | String a s' => bool_decide (a = c) || occurs c s'
  end.

(** ** The flat variant of the engine

    The other source file holds an earlier variant of the same agent:
    discovery without question containers, radios grouped by their
    name in a [Map], a radio script of its own, and a run without the
    check for an empty discovery.  Its label helpers and its text,
    checkbox and select scripts are the ones above. *)

Module Flat.

Definition textField (doc : node) (index : nat) (input : path) : FormField :=
  {| type := textKind doc input;
     label := findLabelForInput doc input;
     name := orElse (Some (nameProperty doc input))
                    ("field_" +:+ pretty index);
     required := requiredProperty doc input;
     options := None;
     element := input |}.

(** The text a radio adds to its group: [value || label]. *)
Definition radioOption (doc : node) (input : path) : string :=
  orElse (Some (choiceValueProperty doc input)) (findLabelForInput doc input).

(** The group a radio opens when its name is new to the map. *)
Definition newGroup (doc : node) (input : path) : FormField :=
  {| type := "radio";
     label := findGroupLabel doc input;
     name := nameProperty doc input;
     required := requiredProperty doc input;
     options := Some [];
     element := input |}.

(** [group.options.push(text)] *)
Definition pushOption (text : string) (group : FormField) : FormField :=
  {| type := type group;
     label := label group;
     name := name group;
     required := required group;
     options := Some (default [] (options group) ++ [text]);
     element := element group |}.

(** [radioGroups.get(key)!.options.push(text)] as it acts on one entry
    of the map. *)
Definition pushAt (key text : string) (entry : string * FormField)
    : string * FormField :=
  if decide (entry.1 = key) then (entry.1, pushOption text entry.2)
  else entry.

(** One turn of [radioInputs.forEach] on [radioGroups], a [Map] from
    name to group kept in insertion order. *)
Definition addRadio (doc : node) (radioGroups : list (string * FormField))
    (input : path) : list (string * FormField) :=
  let key := nameProperty doc input in
  let present :=
    if bool_decide (key ∈ radioGroups.*1) then radioGroups
    else radioGroups ++ [(key, newGroup doc input)] in
  pushAt key (radioOption doc input) <$> present.

Definition radioGroups (doc : node) : list (string * FormField) :=
  foldl (addRadio doc) [] (documentQuerySelectorAll doc radioInput).

Definition checkboxField (doc : node) (index : nat) (input : path)
    : FormField :=
  {| type := "checkbox";
     label := findLabelForInput doc input;
     name := orElse (Some (nameProperty doc input))
                    ("checkbox_" +:+ pretty index);
     required := requiredProperty doc input;
     options := None;
     element := input |}.

Definition selectField (doc : node) (index : nat) (select : path)
    : FormField :=
  {| type := "select";
     label := findLabelForInput doc select;
     name := orElse (Some (nameProperty doc select))
                    ("select_" +:+ pretty index);
     required := requiredProperty doc select;
     options := Some (optionTextProperty doc <$> selectOptions doc select);
     element := select |}.

Definition extractFormFields (doc : node) : list FormField :=
  imap (textField doc) (documentQuerySelectorAll doc textControl)
  ++ (radioGroups doc).*2
  ++ imap (checkboxField doc) (documentQuerySelectorAll doc checkboxInput)
  ++ imap (selectField doc) (documentQuerySelectorAll doc selectControl).

(** The radio script of this variant, with the two helpers it
    declares. *)
Module RadioScript.
Definition findLabelText := CheckboxScript.findLabelText.

Definition findGroupLabelText (doc : node) (el : path) : string :=
  let group := anyOf [attrIs "role" "group"; hasClass "form-group";
                      hasClass "question-group"] in
  let heading := anyOf [hasTag "h1"; hasTag "h2"; hasTag "h3"; hasTag "h4";
                        hasTag "h5"; hasTag "h6"; hasClass "question-title"] in
  match closest doc group el ≫= λ container,
        querySelector doc container heading with
  | Some h => trimmedText doc h
  | None => findLabelText doc el
  end.

Definition test (doc : node) (fieldLabel fieldValue : string) (el : path)
    : bool :=
  (includes (findLabelText doc el) fieldValue
   || bool_decide (choiceValueProperty doc el = fieldValue))
  && includes (findGroupLabelText doc el) fieldLabel.

Definition find (doc : node) (fieldLabel fieldValue : string)
    : option path :=
  List.find (test doc fieldLabel fieldValue)
            (documentQuerySelectorAll doc radioInput).

Definition run (fieldLabel fieldValue : string) (pg : page) : page :=
  match find (document pg) fieldLabel fieldValue with
  | Some radio => click radio pg
  | None => pg
  end.
End RadioScript.

Definition fillField (field : FormField) (value : jsval) (pg : page) : page :=
  if decide (type field = "text" ∨ type field = "textarea") then
    TextScript.run (label field) (toString value) pg
  else if decide (type field = "radio") then
    if offers field value
    then RadioScript.run (label field) (toString value) pg
    else pg
  else if decide (type field = "checkbox") then
    match value with
    | JBool shouldCheck => CheckboxScript.run (label field) shouldCheck pg
    | _ => pg
    end
  else if decide (type field = "select") then
    if offers field value
    then SelectScript.run (label field) (toString value) pg
    else pg
  else pg.

Fixpoint fillForm (fields : list FormField) (formData : gmap string jsval)
    (pg : page) : page :=
  match fields with
  | [] => pg
  | field :: rest =>
      let value := propertyOf formData (label field) in
      if nullish value then fillForm rest formData pg
      else fillForm rest formData (fillField field value pg)
  end.

Section run.
Variable launches : bool.
Variable goto : string → option page.
Variable generateContent : string → option string.
Variable JSON_parse : string → option (gmap string jsval).

(** The run of this variant goes on to the model whatever discovery
    found. *)
Definition autoFillGoogleForm (formUrl : string) (context : option string)
    : completion * list action * option page :=
  if negb launches then (Thrown, [Launch], None)
  else
    match goto formUrl with
    | None => (Thrown, [Launch; Navigate formUrl], None)
    | Some pg =>
        let fields := extractFormFields (document pg) in
        let asked := [Launch; Navigate formUrl; Discover;
                      AskModel (prompt fields context)] in
        match generateFormData generateContent JSON_parse fields context with
        | None => (Thrown, asked, Some pg)
        | Some formData =>
            (Returned, asked ++ [Apply], Some (fillForm fields formData pg))
        end
    end.
End run.
End Flat.

(** Two radio groups told apart by name only, a checkbox, a select and
    a text input, none of them in a question container. *)
Definition looseForm : node :=
  tag "html" [] [
    tag "body" [] [
      tag "input" [("type", "radio"); ("name", "size"); ("value", "S")] [];
      tag "input" [("type", "radio"); ("name", "color"); ("value", "red")] [];
      tag "input" [("type", "radio"); ("name", "size"); ("value", "L")] [];
      tag "input" [("type", "checkbox"); ("aria-label", "Gift wrap")] [];
      tag "select" [("aria-label", "Country")] [
        tag "option" [] [Text "Norway"]
      ];
      tag "input" [("type", "email"); ("placeholder", "E-mail")] []
    ]
  ].

Definition sizeRadios : FormField :=
  {| type := "radio"; label := "Unknown field"; name := "size";
     required := false; options := Some ["S"; "L"]; element := [0; 0] |}.

(** The number of options over a list of descriptors. *)
Definition optionCount (fields : list FormField) : nat :=
  sum_list_with (λ f, length (default [] (options f))) fields.

(** What the map of radio groups holds once the radios [processed] have
    been added, in this order. *)
Definition groupsOf (doc : node) (processed : list path)
    (groups : list (string * FormField)) : Prop :=
  NoDup groups.*1
  ∧ (∀ key group, (key, group) ∈ groups →
       name group = key
       ∧ type group = "radio"
       ∧ options group
         = Some (Flat.radioOption doc
                   <$> filter (λ r, nameProperty doc r = key) processed)
       ∧ head (filter (λ r, nameProperty doc r = key) processed)
         = Some (element group)
       ∧ label group = findGroupLabel doc (element group)
       ∧ required group = requiredProperty doc (element group))
  ∧ (∀ r, r ∈ processed → nameProperty doc r ∈ groups.*1)
  ∧ optionCount groups.*2 = length processed.

(** * Properties *)

(** ** Queries *)

Lemma documentQuerySelectorAll_matches doc s p :
  p ∈ documentQuerySelectorAll doc s → matches doc s p = true.
Proof.
  unfold documentQuerySelectorAll. rewrite list_elem_of_filter.
  intros [Hm _]. by apply Is_true_true.
Qed.

Lemma querySelectorAll_matches doc c s p :
  p ∈ querySelectorAll doc c s → matches doc s p = true.
Proof.
  unfold querySelectorAll. rewrite list_elem_of_filter.
  intros [Hm _]. by apply Is_true_true.
Qed.

(** What a container query returns lies below the container. *)
Lemma querySelectorAll_below doc c s p :
  p ∈ querySelectorAll doc c s → ∃ r, p = c ++ r.
Proof.
  unfold querySelectorAll. rewrite list_elem_of_filter, list_elem_of_fmap.
  intros [_ (r & -> & _)]. by exists r.
Qed.

Lemma inclusiveAncestors_prefix c r : c ∈ inclusiveAncestors (c ++ r).
Proof.
  unfold inclusiveAncestors. apply list_elem_of_fmap.
  exists (length c). split.
  - by rewrite take_app_length.
  - rewrite elem_of_reverse, list_elem_of_In. apply in_seq.
    rewrite length_app. lia.
Qed.

Lemma allElements_Elem e ks :
  allElements (Elem e ks) = [] :: childElements 0 ks.
Proof. reflexivity. Qed.

Lemma childElements_head i ks p :
  p ∈ childElements i ks → ∃ j r, p = j :: r ∧ (i ≤ j)%nat.
Proof.
  revert i. induction ks as [|k ks IH]; intros i; simpl.
  - intros Hp. by apply not_elem_of_nil in Hp.
  - rewrite elem_of_app. intros [Hp|Hp].
    + apply list_elem_of_fmap in Hp as (r & -> & _). by exists i, r.
    + apply IH in Hp as (j & r & -> & Hj). exists j, r. split; [done|lia].
Qed.

Lemma elem_of_childElements i ks p :
  p ∈ childElements i ks
  ↔ ∃ j k r, ks !! j = Some k ∧ p = (i + j) :: r ∧ r ∈ allElements k.
Proof.
  revert i. induction ks as [|k ks IH]; intros i; simpl.
  - split; [intros Hp; by apply not_elem_of_nil in Hp|].
    by intros (j & k & r & Hk & _).
  - rewrite elem_of_app, IH. split.
    + intros [Hp|(j & k' & r & Hk & -> & Hr)].
      * apply list_elem_of_fmap in Hp as (r & -> & Hr).
        exists 0, k, r. by rewrite Nat.add_0_r.
      * exists (S j), k', r. by rewrite Nat.add_succ_r.
    + intros ([|j] & k' & r & Hk & -> & Hr); simpl in Hk.
      * injection Hk as ->. left. rewrite Nat.add_0_r.
        by apply list_elem_of_fmap_2.
      * right. exists j, k', r. by rewrite Nat.add_succ_r.
Qed.

(** The listing has exactly the handles of the elements of the tree. *)
Lemma elem_of_allElements n p :
  p ∈ allElements n ↔ is_Some (elementAt n p).
Proof.
  revert p. induction n as [s|e ks IH] using node_ind; intros p.
  - simpl. split; [intros Hp; by apply not_elem_of_nil in Hp|].
    unfold elementAt. destruct p; simpl; by intros [? ?].
  - rewrite allElements_Elem, elem_of_cons, elem_of_childElements.
    destruct p as [|i r].
    + split; [|by left]. intros _. by eexists.
    + unfold elementAt. simpl. split.
      * intros [?|(j & k & r' & Hk & [= -> ->] & Hr)]; [done|].
        rewrite Hk. rewrite Forall_forall in IH.
        apply (IH k) in Hr; [done|]. apply list_elem_of_lookup. eauto.
      * intros Hsome. right. destruct (ks !! i) as [k|] eqn:Hk.
        -- exists i, k, r. split; [done|]. split; [done|].
           rewrite Forall_forall in IH. apply (IH k); [|done].
           apply list_elem_of_lookup. eauto.
        -- by destruct Hsome.
Qed.

Lemma StronglySorted_filter {A} (R : relation A) (P : A → Prop)
    `{∀ x, Decision (P x)} (l : list A) :
  StronglySorted R l → StronglySorted R (filter P l).
Proof.
  induction 1 as [|x l Hl IH Hx]; [constructor|].
  rewrite filter_cons. case_decide; [|done].
  constructor; [done|]. apply Forall_forall. intros y Hy.
  apply list_elem_of_filter in Hy as [_ Hy].
  by apply (proj1 (Forall_forall _ _) Hx).
Qed.

Lemma childElements_sorted i ks :
  Forall (λ k, StronglySorted precedes (allElements k)) ks →
  StronglySorted precedes (childElements i ks).
Proof.
  intros Hks. revert i. induction Hks as [|k ks Hk _ IH]; intros i; simpl.
  - constructor.
  - apply StronglySorted_app_2.
    + intros p q Hp Hq. apply list_elem_of_fmap in Hp as (r & -> & _).
      apply childElements_head in Hq as (j & r' & -> & Hj). simpl. left. lia.
    + eapply (StronglySorted_fmap _ precedes); [|done].
      intros p q Hpq. simpl. by right.
    + apply IH.
Qed.

(** The listing is in document order. *)
Lemma allElements_sorted n : StronglySorted precedes (allElements n).
Proof.
  induction n as [s|e ks IH] using node_ind; [constructor|].
  rewrite allElements_Elem. constructor.
  - by apply childElements_sorted.
  - apply Forall_forall. intros p Hp.
    by apply childElements_head in Hp as (j & r & -> & _).
Qed.

Lemma precedes_below c p q : precedes p q → precedes (c ++ p) (c ++ q).
Proof.
  intros Hpq. induction c as [|i c IH]; [done|]. simpl. right. by split.
Qed.

(** Both queries answer in document order. *)
Lemma documentQuerySelectorAll_sorted doc s :
  StronglySorted precedes (documentQuerySelectorAll doc s).
Proof. apply StronglySorted_filter, allElements_sorted. Qed.

Lemma querySelectorAll_sorted doc c s :
  StronglySorted precedes (querySelectorAll doc c s).
Proof.
  apply StronglySorted_filter.
  eapply (StronglySorted_fmap _ precedes); [by apply precedes_below|].
  destruct (subtree doc c) as [n|]; simpl; [|constructor].
  pose proof (allElements_sorted n) as Hn.
  destruct (allElements n); [constructor|].
  by apply StronglySorted_cons in Hn as [_ ?].
Qed.

(** What a query over the document returns is an element of it. *)
Lemma documentQuerySelectorAll_element doc s p :
  p ∈ documentQuerySelectorAll doc s → is_Some (elementAt doc p).
Proof.
  unfold documentQuerySelectorAll. rewrite list_elem_of_filter.
  intros [_ Hp]. by apply elem_of_allElements.
Qed.

(** [closest] finds something as soon as one inclusive ancestor matches. *)
Lemma closest_is_Some doc s p q :
  q ∈ inclusiveAncestors p → matches doc s q = true →
  is_Some (closest doc s p).
Proof.
  intros Hq Hm. unfold closest.
  destruct (filter _ (inclusiveAncestors p)) as [|x l] eqn:Hf; [|by eexists].
  assert (q ∈ filter (λ q, matches doc s q) (inclusiveAncestors p)) as Hin.
  { apply list_elem_of_filter. split; [by apply Is_true_true|done]. }
  rewrite Hf in Hin. by apply not_elem_of_nil in Hin.
Qed.

Lemma find_all_false {A} (f : A → bool) (l : list A) :
  (∀ x, x ∈ l → f x = false) → List.find f l = None.
Proof.
  induction l as [|a l IH]; intros Hall; [done|]. simpl.
  rewrite (Hall a) by left. apply IH. intros x Hx. apply Hall. by right.
Qed.

Lemma find_Some_elem {A} (f : A → bool) (l : list A) x :
  List.find f l = Some x → x ∈ l ∧ f x = true.
Proof.
  intros Hfind. destruct (find_some f l Hfind) as [Hin Hf].
  by rewrite list_elem_of_In.
Qed.

(** ** Application leaves the tree alone *)

Lemma click_document p pg : document (click p pg) = document pg.
Proof. unfold click. repeat case_match; reflexivity. Qed.

Lemma CheckboxScript_run_document l b pg :
  document (CheckboxScript.run l b pg) = document pg.
Proof.
  unfold CheckboxScript.run. repeat case_match; try done.
  apply click_document.
Qed.

(** A click on a checkbox that is not disabled flips its checkedness. *)
Lemma click_checkbox_flips p pg :
  matches (document pg) checkboxInput p = true →
  disabledProperty (document pg) p = false →
  checkedProperty (click p pg) p = negb (checkedProperty pg p).
Proof.
  intros Hm Hd. unfold click. rewrite Hd, Hm. unfold checkedProperty. simpl.
  destruct (bool_decide (p ∈ checkedness pg)) eqn:Hc.
  - apply bool_decide_eq_true in Hc. simpl.
    apply bool_decide_eq_false. rewrite elem_of_difference, elem_of_singleton.
    by intros [_ Hne].
  - apply bool_decide_eq_false in Hc. simpl.
    apply bool_decide_eq_true. rewrite elem_of_union, elem_of_singleton.
    by right.
Qed.

Lemma click_disabled p pg :
  disabledProperty (document pg) p = true → click p pg = pg.
Proof. intros Hd. unfold click. by rewrite Hd. Qed.

Lemma CheckboxScript_run_idempotent l b pg :
  CheckboxScript.run l b (CheckboxScript.run l b pg)
  = CheckboxScript.run l b pg.
Proof.
  unfold CheckboxScript.run at 1. rewrite CheckboxScript_run_document.
  unfold CheckboxScript.run.
  destruct (CheckboxScript.find (document pg) l) as [cb|] eqn:Hfind; [|done].
  apply find_Some_elem in Hfind as [Hin _].
  apply documentQuerySelectorAll_matches in Hin.
  destruct (bool_decide (checkedProperty pg cb ≠ b)) eqn:Hne; [|by rewrite Hne].
  destruct (disabledProperty (document pg) cb) eqn:Hd.
  - rewrite !(click_disabled cb pg) by done. by rewrite Hne.
  - rewrite click_checkbox_flips by done.
    apply bool_decide_eq_true in Hne.
    rewrite bool_decide_eq_false_2; [done|].
    by destruct (checkedProperty pg cb), b; intros Hflip; apply Hflip.
Qed.

(** C6.  Applying the same assignment to a checkbox descriptor twice
    leaves the page exactly as applying it once does: the same
    checkedness, and no event from the second application, because the
    click is made only when the checked state differs from the wanted
    boolean. *)
Theorem checkbox_application_idempotent field formData pg :
  type field = "checkbox" →
  fillForm [field] formData (fillForm [field] formData pg)
  = fillForm [field] formData pg.
Proof.
  intros Hty. simpl.
  destruct (nullish (propertyOf formData (label field))); [done|].
  unfold fillField. rewrite Hty. simpl.
  destruct (propertyOf formData (label field)); try done.
  apply CheckboxScript_run_idempotent.
Qed.

Lemma checkbox_application_idempotent_witness :
  type agreeCheckbox = "checkbox"
  ∧ elements (checkedness
                (fillForm [agreeCheckbox]
                   {[ "Favorite color - Agree" := JBool true ]}
                   (freshPage colorForm))) = [[0; 0; 4; 0]]
  ∧ fillForm [agreeCheckbox] {[ "Favorite color - Agree" := JBool true ]}
      (fillForm [agreeCheckbox] {[ "Favorite color - Agree" := JBool true ]}
         (freshPage colorForm))
    = fillForm [agreeCheckbox] {[ "Favorite color - Agree" := JBool true ]}
        (freshPage colorForm).
Proof.
  split; [reflexivity|]. split; [by vm_compute|].
  apply (checkbox_application_idempotent agreeCheckbox). reflexivity.
Defined.

(** The discovery pass over [colorForm] yields exactly the three sample
    descriptors. *)
Example extractFormFields_colorForm :
  extractFormFields colorForm = [colorRadios; agreeCheckbox; nameInput].
Proof. by vm_compute. Qed.

(** ** Skipping and silent misses *)

Lemma fillForm_app fields1 fields2 formData pg :
  fillForm (fields1 ++ fields2) formData pg
  = fillForm fields2 formData (fillForm fields1 formData pg).
Proof.
  revert pg. induction fields1 as [|f fields1 IH]; intros pg; [done|].
  simpl. destruct (nullish _); apply IH.
Qed.

(** C9.  A descriptor whose label reads [undefined] or [null] from the
    value mapping is skipped: applying it alone changes nothing on the
    page (no value, no checkedness, no event), and a list of
    descriptors is applied as if it were not in the list. *)
Theorem absent_value_is_skipped field formData :
  propertyOf formData (label field) = JUndefined
  ∨ propertyOf formData (label field) = JNull →
  ∀ pg,
    fillForm [field] formData pg = pg
    ∧ ∀ before after,
        fillForm (before ++ field :: after) formData pg
        = fillForm (before ++ after) formData pg.
Proof.
  intros Habsent pg.
  assert (nullish (propertyOf formData (label field)) = true) as Hnull.
  { by destruct Habsent as [-> | ->]. }
  split.
  - simpl. by rewrite Hnull.
  - intros before after. rewrite !fillForm_app. simpl. by rewrite Hnull.
Qed.

Lemma absent_value_is_skipped_witness :
  (propertyOf {[ "Favorite color" := JString "Green" ]} (label nameInput)
   = JUndefined
   ∨ propertyOf {[ "Favorite color" := JString "Green" ]} (label nameInput)
     = JNull)
  ∧ fillForm [nameInput; colorRadios]
      {[ "Favorite color" := JString "Green" ]} (freshPage colorForm)
    = fillForm [colorRadios]
        {[ "Favorite color" := JString "Green" ]} (freshPage colorForm).
Proof.
  split; [by left|].
  refine (proj2 (absent_value_is_skipped nameInput
                   {[ "Favorite color" := JString "Green" ]}
                   _ (freshPage colorForm))
                [] [colorRadios]).
  by left.
Defined.

(** A key the mapping does not own reads as [undefined], unless
    [Object.prototype] has a member of that name. *)
Lemma propertyOf_absent (formData : gmap string jsval) key :
  formData !! key = None → inheritedProperty key = JUndefined →
  propertyOf formData key = JUndefined.
Proof. intros Hnone Hinh. unfold propertyOf. by rewrite Hnone. Qed.

Example propertyOf_inherited :
  propertyOf ∅ "constructor" = JOther "function Object() { [native code] }".
Proof. reflexivity. Qed.

(** C10.  For a text or textarea descriptor, when no text control of
    the document has an inferred label that contains the descriptor's
    label or is contained in it, application is a silent no-op: the
    page is returned as it was (no value set, no event dispatched) for
    every value, and nothing is raised. *)
Theorem text_without_match_is_noop field pg :
  type field = "text" ∨ type field = "textarea" →
  (∀ el, el ∈ documentQuerySelectorAll (document pg) textControl →
         matchesEitherWay (TextScript.findLabelText (document pg) el)
                          (label field) = false) →
  ∀ value formData,
    fillField field value pg = pg ∧ fillForm [field] formData pg = pg.
Proof.
  intros Hty Hnone.
  assert (∀ v, fillField field v pg = pg) as Hfield.
  { intros v. unfold fillField. rewrite decide_True by done.
    unfold TextScript.run, TextScript.find.
    by rewrite find_all_false. }
  intros value formData. split; [apply Hfield|].
  simpl. destruct (nullish _); [done|apply Hfield].
Qed.

Lemma text_without_match_is_noop_witness :
  Forall (λ el, matchesEitherWay (TextScript.findLabelText colorForm el)
                                 (label nameInput) = false)
         (documentQuerySelectorAll colorForm textControl)
  ∧ fillForm [nameInput] {[ "Name" := JString "Ada" ]} (freshPage colorForm)
    = freshPage colorForm.
Proof.
  assert (Forall (λ el, matchesEitherWay
                          (TextScript.findLabelText colorForm el)
                          (label nameInput) = false)
                 (documentQuerySelectorAll colorForm textControl)) as Hnone.
  { let l := eval vm_compute in
               (documentQuerySelectorAll colorForm textControl) in
    change (documentQuerySelectorAll colorForm textControl) with l.
    repeat constructor. }
  split; [exact Hnone|].
  refine (proj2 (text_without_match_is_noop nameInput (freshPage colorForm)
                   _ _ (JString "Ada") _)).
  - by left.
  - intros el Hel. by apply (proj1 (Forall_forall _ _) Hnone).
Defined.

(** ** The run with nothing discovered *)


(** C8.  When discovery yields no descriptor, the entry point returns
    normally, with the page as it was loaded, and its actions end with
    the notice: the model is never asked for a value mapping. *)
Theorem no_fields_stops_before_asking
    launches goto generateContent JSON_parse formUrl context pg :
  launches = true →
  goto formUrl = Some pg →
  extractFormFields (document pg) = [] →
  autoFillGoogleForm launches goto generateContent JSON_parse formUrl context
  = (Returned, [Launch; Navigate formUrl; Discover; NoFieldsNotice], Some pg)
  ∧ ∀ text,
      AskModel text ∉ [Launch; Navigate formUrl; Discover; NoFieldsNotice].
Proof.
  intros -> Hgoto Hnone. split.
  - unfold autoFillGoogleForm. simpl. rewrite Hgoto, Hnone. done.
  - intros text Hin. repeat (apply elem_of_cons in Hin as [Heq|Hin]; [done|]).
    by apply not_elem_of_nil in Hin.
Qed.

Lemma no_fields_stops_before_asking_witness :
  extractFormFields emptyDocument = []
  ∧ autoFillGoogleForm true (λ _, Some (freshPage emptyDocument))
      (λ _, Some "{}") (λ _, Some ∅) "https://forms.example/f" None
    = (Returned,
       [Launch; Navigate "https://forms.example/f"; Discover; NoFieldsNotice],
       Some (freshPage emptyDocument)).
Proof.
  split; [by vm_compute|].
  refine (proj1 (no_fields_stops_before_asking true
                   (λ _, Some (freshPage emptyDocument))
                   (λ _, Some "{}") (λ _, Some ∅)
                   "https://forms.example/f" None
                   (freshPage emptyDocument) eq_refl eq_refl _)).
  by vm_compute.
Defined.

(** With at least one descriptor the model is asked. *)
Lemma some_fields_asks
    launches goto generateContent JSON_parse formUrl context pg :
  launches = true →
  goto formUrl = Some pg →
  extractFormFields (document pg) ≠ [] →
  AskModel (prompt (extractFormFields (document pg)) context)
  ∈ (autoFillGoogleForm launches goto generateContent JSON_parse
       formUrl context).1.2.
Proof.
  intros -> Hgoto Hsome. unfold autoFillGoogleForm. simpl. rewrite Hgoto.
  rewrite decide_False by (by destruct (extractFormFields (document pg))).
  destruct (generateFormData _ _ _ _); simpl;
    rewrite ?elem_of_app, !elem_of_cons; naive_solver.
Qed.

(** ** Which radio is clicked *)

(** The events of one [click] are all on the clicked element. *)
Lemma click_dispatched p pg :
  ∃ events, dispatched (click p pg) = dispatched pg ++ events
            ∧ ∀ q ev, (q, ev) ∈ events → q = p.
Proof.
  unfold click. repeat case_match; simpl.
  1: exists []; split; [by rewrite app_nil_r|];
       intros q ev Hin; by apply not_elem_of_nil in Hin.
  all: rewrite <- ?app_assoc; eexists; split; [reflexivity|];
       intros q ev Hin; simpl in Hin;
       repeat (apply elem_of_cons in Hin as [Heq|Hin]; [by simplify_eq|]);
       by apply not_elem_of_nil in Hin.
Qed.

(** C7.  A radio descriptor is applied only when the value, as a
    string, is one of its options; and a radio that gets clicked is a
    radio input whose own label contains the value or is contained in
    it, and whose question container's title text contains the
    descriptor's label or is contained in it. *)
Theorem radio_application_sound field value pg :
  type field = "radio" →
  (offers field value = false → fillField field value pg = pg)
  ∧ ∀ radio events,
      dispatched (fillField field value pg) = dispatched pg ++ events →
      (radio, "click") ∈ events →
      (∃ opts, options field = Some opts ∧ toString value ∈ opts)
      ∧ radio ∈ documentQuerySelectorAll (document pg) radioInput
      ∧ matchesEitherWay (RadioScript.ownLabel (document pg) radio)
                         (toString value) = true
      ∧ matchesEitherWay (RadioScript.questionText (document pg) radio)
                         (label field) = true.
Proof.
  intros Hty. unfold fillField. rewrite Hty. simpl. split.
  { by intros ->. }
  intros radio events Hev Hin.
  assert (∀ l : list (path * string), l = l ++ events → False) as Hnil.
  { intros l Hl. rewrite <- (app_nil_r l) in Hl at 1.
    apply app_inv_head in Hl. subst events.
    by apply not_elem_of_nil in Hin. }
  destruct (offers field value) eqn:Hoffers; [|by destruct (Hnil _ Hev)].
  unfold RadioScript.run in Hev.
  destruct (RadioScript.find (document pg) (label field) (toString value))
    as [r|] eqn:Hfind; [|by destruct (Hnil _ Hev)].
  destruct (click_dispatched r pg) as (evs & Hevs & Hon).
  rewrite Hevs in Hev. apply app_inv_head in Hev. subst evs.
  apply Hon in Hin. subst r.
  apply find_Some_elem in Hfind as [Hradio Htest].
  apply andb_true_iff in Htest as [Hown Hquestion].
  split; [|split; [done|split]].
  - unfold offers in Hoffers. destruct (options field) as [opts|]; [|done].
    exists opts. split; [done|]. by apply bool_decide_eq_true in Hoffers.
  - done.
  - unfold matchesEitherWay. by rewrite Hquestion.
Qed.

Lemma radio_application_sound_witness :
  type colorRadios = "radio"
  ∧ dispatched (fillField colorRadios (JString "Green") (freshPage colorForm))
    = dispatched (freshPage colorForm)
      ++ [([0; 0; 2; 0], "click"); ([0; 0; 2; 0], "input");
          ([0; 0; 2; 0], "change")]
  ∧ matchesEitherWay (RadioScript.ownLabel colorForm [0; 0; 2; 0]) "Green"
    = true
  ∧ matchesEitherWay (RadioScript.questionText colorForm [0; 0; 2; 0])
                     "Favorite color" = true.
Proof.
  assert (dispatched
            (fillField colorRadios (JString "Green") (freshPage colorForm))
          = dispatched (freshPage colorForm)
            ++ [([0; 0; 2; 0], "click"); ([0; 0; 2; 0], "input");
                ([0; 0; 2; 0], "change")]) as Hev by (by vm_compute).
  split; [reflexivity|]. split; [exact Hev|].
  refine (proj2 (proj2 (proj2 (radio_application_sound colorRadios
                   (JString "Green") (freshPage colorForm) eq_refl)
                   [0; 0; 2; 0] _ Hev _))).
  apply elem_of_cons. by left.
Defined.

(** The three radios under the heading: one descriptor with the three
    options; applying the value [Green] checks the second radio and no
    other. *)
Example favorite_color_scenario :
  filter (λ f, type f = "radio") (extractFormFields colorForm)
  = [colorRadios]
  ∧ elements (checkedness
                (fillForm [colorRadios]
                   {[ "Favorite color" := JString "Green" ]}
                   (freshPage colorForm))) = [[0; 0; 2; 0]].
Proof. split; by vm_compute. Qed.

(** The container test of the radio script runs one way only: the
    title text must contain the descriptor's label. *)
Lemma radio_found_title_contains_label doc fieldLabel fieldValue radio :
  RadioScript.find doc fieldLabel fieldValue = Some radio →
  includes (RadioScript.questionText doc radio) fieldLabel = true.
Proof.
  intros Hfind. apply find_Some_elem in Hfind as [_ Htest].
  by apply andb_true_iff in Htest as [_ ?].
Qed.


Example untitled_radio_not_clicked :
  (label <$> extractFormFields untitledForm) = ["Question 1"]
  ∧ matchesEitherWay (RadioScript.questionText untitledForm [0; 0; 0; 0])
                     "Question 1" = true
  ∧ matchesEitherWay (RadioScript.ownLabel untitledForm [0; 0; 0; 0]) "Yes"
    = true
  ∧ fillForm (extractFormFields untitledForm)
      {[ "Question 1" := JString "Yes" ]} (freshPage untitledForm)
    = freshPage untitledForm.
Proof. repeat split; by vm_compute. Qed.

(** ** What one container contributes *)

Lemma filter_all {A} (P : A → Prop) `{∀ x, Decision (P x)} (l : list A) :
  Forall P l → filter P l = l.
Proof.
  induction 1 as [|x l Hx _ IH]; [done|].
  by rewrite filter_cons_True, IH.
Qed.

Lemma filter_none {A} (P : A → Prop) `{∀ x, Decision (P x)} (l : list A) :
  Forall (λ x, ¬ P x) l → filter P l = [].
Proof.
  induction 1 as [|x l Hx _ IH]; [done|].
  by rewrite filter_cons_False.
Qed.

Lemma Forall_imap_intro {A B} (Q : B → Prop) (f : nat → A → B) (l : list A) :
  (∀ i x, l !! i = Some x → Q (f i x)) → Forall Q (imap f l).
Proof.
  intros Hall. apply Forall_forall. intros y Hy.
  apply elem_of_lookup_imap in Hy as (i & x & -> & Hx). eauto.
Qed.

Lemma filter_concat_imap {A B} (P : B → Prop) `{∀ x, Decision (P x)}
    (g : nat → A → list B) (l : list A) :
  filter P (concat (imap g l)) = concat (imap (λ j x, filter P (g j x)) l).
Proof.
  revert g. induction l as [|x l IH]; intros g; [done|].
  simpl. by rewrite filter_app, IH.
Qed.

(** When a single position contributes, the concatenation is that
    contribution. *)
Lemma concat_imap_single {A B} (g : nat → A → list B) (l : list A) i x :
  l !! i = Some x →
  (∀ j y, l !! j = Some y → j ≠ i → g j y = []) →
  concat (imap g l) = g i x.
Proof.
  revert g i. induction l as [|a l IH]; intros g i Hi Hrest; [done|].
  simpl. destruct i as [|i]; simpl in Hi.
  - injection Hi as ->.
    assert (concat (imap (g ∘ S) l) = []) as ->; [|by rewrite app_nil_r].
    apply concat_nil_Forall, Forall_imap_intro.
    intros j y Hy. simpl. by apply Hrest.
  - rewrite (Hrest 0 a) by done. simpl.
    apply (IH (g ∘ S) i Hi). intros j y Hy Hne. simpl. apply Hrest; [done|lia].
Qed.

Lemma textKind_cases doc input :
  textKind doc input = "text" ∨ textKind doc input = "textarea".
Proof. unfold textKind. destruct (matches _ _ _); auto. Qed.

Section kinds.
Variables (doc : node) (containerIndex : nat) (container : path).

Lemma radioGroup_type :
  Forall (λ f, type f = "radio") (radioGroup doc containerIndex container).
Proof.
  unfold radioGroup. destruct (querySelectorAll _ _ _); repeat constructor.
Qed.

Lemma checkboxFields_type :
  Forall (λ f, type f = "checkbox")
         (checkboxFields doc containerIndex container).
Proof. by apply Forall_imap_intro. Qed.

Lemma textFields_type :
  Forall (λ f, type f = "text" ∨ type f = "textarea")
         (textFields doc containerIndex container).
Proof. apply Forall_imap_intro. intros. apply textKind_cases. Qed.

Lemma selectFields_type :
  Forall (λ f, type f = "select")
         (selectFields doc containerIndex container).
Proof. by apply Forall_imap_intro. Qed.

Lemma containerFields_radio :
  filter (λ f, type f = "radio")
         (containerFields doc containerIndex container)
  = radioGroup doc containerIndex container.
Proof.
  unfold containerFields. rewrite !filter_app.
  rewrite (filter_all _ _ radioGroup_type).
  rewrite (filter_none _ (checkboxFields _ _ _)),
          (filter_none _ (textFields _ _ _)),
          (filter_none _ (selectFields _ _ _)).
  - by rewrite !app_nil_r.
  - eapply Forall_impl; [apply selectFields_type|]. by intros f ->.
  - eapply Forall_impl; [apply textFields_type|]. by intros f [-> | ->].
  - eapply Forall_impl; [apply checkboxFields_type|]. by intros f ->.
Qed.

Lemma containerFields_checkbox :
  filter (λ f, type f = "checkbox")
         (containerFields doc containerIndex container)
  = checkboxFields doc containerIndex container.
Proof.
  unfold containerFields. rewrite !filter_app.
  rewrite (filter_all _ _ checkboxFields_type).
  rewrite (filter_none _ (radioGroup _ _ _)),
          (filter_none _ (textFields _ _ _)),
          (filter_none _ (selectFields _ _ _)).
  - by rewrite !app_nil_r.
  - eapply Forall_impl; [apply selectFields_type|]. by intros f ->.
  - eapply Forall_impl; [apply textFields_type|]. by intros f [-> | ->].
  - eapply Forall_impl; [apply radioGroup_type|]. by intros f ->.
Qed.
End kinds.

Lemma fallbackSweep_type doc :
  Forall (λ f, type f = "text" ∨ type f = "textarea") (fallbackSweep doc).
Proof.
  unfold fallbackSweep. apply Forall_concat, Forall_imap_intro.
  intros i input _. unfold fallbackField.
  destruct (closest _ _ _); [apply Forall_nil_2|].
  apply Forall_cons_2; [apply textKind_cases|apply Forall_nil_2].
Qed.

Lemma radioGroup_name doc j c :
  Forall (λ f, name f = "question_" +:+ pretty j) (radioGroup doc j c).
Proof.
  unfold radioGroup. destruct (querySelectorAll _ _ _); repeat constructor.
Qed.

Lemma question_name_inj (i j : nat) :
  "question_" +:+ pretty i = "question_" +:+ pretty j → i = j.
Proof. intros Heq. by apply String.app_inj, pretty_nat_inj in Heq. Qed.

(** C4.  The radios of one question container make exactly one radio
    descriptor: one among the descriptors of that container, and one
    under the container's identifier in the whole pass.  Its options
    are the option texts of the container's radios, one per radio, in
    the order the container query lists them, which is document
    order. *)
Theorem radios_of_container_make_one_group doc containerIndex container :
  documentQuerySelectorAll doc questionContainer !! containerIndex
  = Some container →
  querySelectorAll doc container radioInput ≠ [] →
  ∃ group,
    filter (λ f, type f = "radio")
           (containerFields doc containerIndex container) = [group]
    ∧ filter (λ f, name f = "question_" +:+ pretty containerIndex
                   ∧ type f = "radio")
             (extractFormFields doc) = [group]
    ∧ label group = questionTextAt doc container containerIndex
    ∧ options group
      = Some (radioOptionText doc
                <$> querySelectorAll doc container radioInput)
    ∧ length (default [] (options group))
      = length (querySelectorAll doc container radioInput)
    ∧ StronglySorted precedes (querySelectorAll doc container radioInput).
Proof.
  intros Hcontainer Hradios.
  pose proof (querySelectorAll_sorted doc container radioInput) as Hsorted.
  destruct (querySelectorAll doc container radioInput) as [|first others]
    eqn:Hquery; [done|].
  eexists. split; [|split; [|split; [|split; [|split]]]].
  - rewrite containerFields_radio. unfold radioGroup. by rewrite Hquery.
  - unfold extractFormFields, containerPass. rewrite filter_app.
    rewrite (filter_none _ (fallbackSweep doc)).
    2:{ eapply Forall_impl; [apply fallbackSweep_type|].
        intros f [Hty|Hty] [_ Hradio]; congruence. }
    rewrite app_nil_r, filter_concat_imap.
    rewrite (concat_imap_single _ _ containerIndex container Hcontainer).
    + rewrite <- list_filter_filter, containerFields_radio.
      unfold radioGroup. rewrite Hquery. by rewrite filter_cons_True.
    + intros j c' _ Hne.
      rewrite <- list_filter_filter, containerFields_radio.
      apply filter_none. eapply Forall_impl; [apply radioGroup_name|].
      intros f Hname Hname'. rewrite Hname in Hname'.
      by apply question_name_inj in Hname'.
  - done.
  - done.
  - simpl. by rewrite length_fmap.
  - done.
Qed.

Lemma radios_of_container_make_one_group_witness :
  documentQuerySelectorAll colorForm questionContainer !! 0 = Some [0; 0]
  ∧ querySelectorAll colorForm [0; 0] radioInput
    = [[0; 0; 1; 0]; [0; 0; 2; 0]; [0; 0; 3; 0]]
  ∧ ∃ group,
      filter (λ f, type f = "radio") (containerFields colorForm 0 [0; 0])
      = [group]
      ∧ filter (λ f, name f = "question_" +:+ pretty 0 ∧ type f = "radio")
               (extractFormFields colorForm) = [group]
      ∧ label group = questionTextAt colorForm [0; 0] 0
      ∧ options group
        = Some (radioOptionText colorForm
                  <$> querySelectorAll colorForm [0; 0] radioInput)
      ∧ length (default [] (options group))
        = length (querySelectorAll colorForm [0; 0] radioInput)
      ∧ StronglySorted precedes
          (querySelectorAll colorForm [0; 0] radioInput).
Proof.
  assert (querySelectorAll colorForm [0; 0] radioInput
          = [[0; 0; 1; 0]; [0; 0; 2; 0]; [0; 0; 3; 0]]) as Hquery
    by (by vm_compute).
  split; [by vm_compute|]. split; [exact Hquery|].
  apply (radios_of_container_make_one_group colorForm 0 [0; 0]).
  - by vm_compute.
  - by rewrite Hquery.
Defined.

(** A container without radios contributes no radio descriptor. *)
Lemma no_radios_no_group doc containerIndex container :
  querySelectorAll doc container radioInput = [] →
  filter (λ f, type f = "radio")
         (containerFields doc containerIndex container) = [].
Proof.
  intros Hquery. rewrite containerFields_radio. unfold radioGroup.
  by rewrite Hquery.
Qed.

(** C5.  The checkboxes of one container are never grouped: the
    checkbox descriptors of the container are one per checkbox, in
    order, each for its own checkbox and labelled with the container's
    question text, [" - "], and the checkbox's own text; so N
    checkboxes give N descriptors.  Over the whole pass the checkbox
    descriptors are those of the containers, one after the other. *)
Theorem checkboxes_are_not_grouped doc containerIndex container :
  let checkboxes := querySelectorAll doc container checkboxInput in
  let emitted := filter (λ f, type f = "checkbox")
                        (containerFields doc containerIndex container) in
  length emitted = length checkboxes
  ∧ element <$> emitted = checkboxes
  ∧ label <$> emitted
    = imap (λ checkboxIndex checkbox,
              questionTextAt doc container containerIndex +:+ " - "
              +:+ checkboxText doc checkbox checkboxIndex)
           checkboxes
  ∧ filter (λ f, type f = "checkbox") (extractFormFields doc)
    = concat (imap (λ i c, filter (λ f, type f = "checkbox")
                                  (containerFields doc i c))
                   (documentQuerySelectorAll doc questionContainer)).
Proof.
  simpl. rewrite containerFields_checkbox. unfold checkboxFields.
  split; [by rewrite length_imap|]. split; [|split].
  - rewrite fmap_imap.
    rewrite (imap_ext _ (const id)) by done. by rewrite imap_const, list_fmap_id.
  - by rewrite fmap_imap.
  - unfold extractFormFields, containerPass. rewrite filter_app.
    rewrite (filter_none _ (fallbackSweep doc)).
    + by rewrite app_nil_r, filter_concat_imap.
    + eapply Forall_impl; [apply fallbackSweep_type|].
      intros f [Hty|Hty] Hbox; congruence.
Qed.

(** ** Claimed by a container, or swept *)

Lemma elem_of_concat {A} (ls : list (list A)) y :
  y ∈ concat ls ↔ ∃ l, y ∈ l ∧ l ∈ ls.
Proof.
  rewrite list_elem_of_In, in_concat. split.
  - intros (l & Hl & Hy). exists l. by rewrite !list_elem_of_In.
  - intros (l & Hy & Hl). exists l. by rewrite <- !list_elem_of_In.
Qed.

Lemma elem_of_concat_imap {A B} (g : nat → A → list B) (l : list A) y :
  y ∈ concat (imap g l) ↔ ∃ i x, l !! i = Some x ∧ y ∈ g i x.
Proof.
  rewrite elem_of_concat. split.
  - intros (ys & Hy & Hys).
    apply elem_of_lookup_imap in Hys as (i & x & -> & Hx). eauto.
  - intros (i & x & Hx & Hy). exists (g i x). split; [done|].
    by apply elem_of_lookup_imap_2.
Qed.

Lemma containerFields_element doc i c f :
  f ∈ containerFields doc i c → element f ∈ containerControls doc c.
Proof.
  unfold containerFields, containerControls. rewrite !elem_of_app.
  intros [Hf|[Hf|[Hf|Hf]]].
  - left. unfold radioGroup in Hf.
    destruct (querySelectorAll doc c radioInput) as [|first others]; simpl in Hf.
    + by apply not_elem_of_nil in Hf.
    + apply list_elem_of_singleton in Hf as ->. simpl. by left.
  - right; left.
    apply elem_of_lookup_imap in Hf as (j & x & -> & Hx). simpl.
    apply list_elem_of_lookup. eauto.
  - right; right; left.
    apply elem_of_lookup_imap in Hf as (j & x & -> & Hx). simpl.
    apply list_elem_of_lookup. eauto.
  - right; right; right.
    apply elem_of_lookup_imap in Hf as (j & x & -> & Hx). simpl.
    apply list_elem_of_lookup. eauto.
Qed.

(** The descriptors of the container pass are for claimed controls. *)
Lemma containerPass_claims doc f :
  f ∈ containerPass doc → element f ∈ claimedControls doc.
Proof.
  unfold containerPass, claimedControls. rewrite elem_of_concat_imap.
  intros (i & c & Hc & Hf). apply elem_of_concat.
  exists (containerControls doc c). split.
  - by apply containerFields_element in Hf.
  - apply list_elem_of_fmap_2, list_elem_of_lookup. eauto.
Qed.

(** A claimed control has a question container among its ancestors. *)
Lemma claimed_has_container doc p :
  p ∈ claimedControls doc → is_Some (closest doc questionContainer p).
Proof.
  unfold claimedControls. rewrite elem_of_concat.
  intros (ps & Hp & Hps). apply list_elem_of_fmap in Hps as (c & -> & Hc).
  apply documentQuerySelectorAll_matches in Hc.
  assert (∃ r, p = c ++ r) as [r ->].
  { unfold containerControls in Hp. rewrite !elem_of_app in Hp.
    destruct Hp as [Hp|[Hp|[Hp|Hp]]]; by apply querySelectorAll_below in Hp. }
  eapply closest_is_Some; [apply inclusiveAncestors_prefix|done].
Qed.

(** The sweep emits only for controls without such an ancestor. *)
Lemma fallbackSweep_unclaimed doc f :
  f ∈ fallbackSweep doc → closest doc questionContainer (element f) = None.
Proof.
  unfold fallbackSweep. rewrite elem_of_concat_imap.
  intros (i & input & _ & Hf). unfold fallbackField in Hf.
  destruct (closest doc questionContainer input) eqn:Hclosest.
  - by apply not_elem_of_nil in Hf.
  - by apply list_elem_of_singleton in Hf as ->.
Qed.

(** C3.  No double claim: the controls the container pass emits
    descriptors for, and indeed all the controls the containers' queries
    find, are disjoint from the controls the fallback sweep emits
    descriptors for. *)
Theorem no_double_claim doc :
  list_to_set (element <$> containerPass doc)
    ##@{gset path} list_to_set (element <$> fallbackSweep doc)
  ∧ list_to_set (claimedControls doc)
      ##@{gset path} list_to_set (element <$> fallbackSweep doc).
Proof.
  assert (∀ p, p ∈ claimedControls doc →
               p ∈ element <$> fallbackSweep doc → False) as Hdisjoint.
  { intros p Hclaimed Hswept.
    apply list_elem_of_fmap in Hswept as (g & -> & Hg).
    apply fallbackSweep_unclaimed in Hg.
    apply claimed_has_container in Hclaimed as [c Hc]. congruence. }
  split; apply elem_of_disjoint; intros p; rewrite !elem_of_list_to_set.
  - intros Hin. apply Hdisjoint.
    apply list_elem_of_fmap in Hin as (f & -> & Hf).
    by apply containerPass_claims.
  - apply Hdisjoint.
Qed.

Example no_double_claim_colorForm :
  element <$> containerPass colorForm = [[0; 0; 1; 0]; [0; 0; 4; 0]]
  ∧ claimedControls colorForm
    = [[0; 0; 1; 0]; [0; 0; 2; 0]; [0; 0; 3; 0]; [0; 0; 4; 0]]
  ∧ element <$> fallbackSweep colorForm = [[0; 1; 1]].
Proof. repeat split; by vm_compute. Qed.

(** ** Identifiers *)


Lemma pretty_N_char_digit x : is_Some (Ascii.is_nat (pretty_N_char x)).
Proof. unfold pretty_N_char. repeat case_match; by eexists. Qed.

Lemma pretty_N_go_digits x s : digits s → digits (pretty_N_go x s).
Proof.
  revert s. induction (N.lt_wf_0 x) as [x _ IH]. intros s Hs.
  destruct (decide (0 < x)%N) as [Hpos|Hzero].
  - rewrite pretty_N_go_step by done. apply IH.
    + apply N.div_lt; lia.
    + split; [apply pretty_N_char_digit|done].
  - assert (x = 0%N) as -> by lia. by rewrite pretty_N_go_0.
Qed.

Lemma pretty_nat_digits (n : nat) : digits (pretty n).
Proof.
  unfold pretty, pretty_nat, pretty, pretty_N. case_decide.
  - split; [by eexists|done].
  - by apply pretty_N_go_digits.
Qed.

Lemma digits_then_separator a b r r' :
  digits a → digits b → separated r → separated r' →
  a +:+ r = b +:+ r' → a = b ∧ r = r'.
Proof.
  revert b. induction a as [|c a IH]; intros [|d b] Ha Hb Hr Hr' Heq;
    simpl in *.
  - done.
  - exfalso. destruct Hb as [[k Hk] _], Hr as [->|[r0 ->]]; [done|].
    injection Heq as <- _. done.
  - exfalso. destruct Ha as [[k Hk] _], Hr' as [->|[r0 ->]]; [done|].
    injection Heq as -> _. done.
  - injection Heq as -> Heq.
    destruct (IH b) as [-> ->]; try done; [apply Ha|apply Hb].
Qed.

Lemma numeral_then_separator (i j : nat) r r' :
  separated r → separated r' →
  pretty i +:+ r = pretty j +:+ r' → i = j ∧ r = r'.
Proof.
  intros Hr Hr' Heq.
  destruct (digits_then_separator (pretty i) (pretty j) r r')
    as [Hij ->]; auto using pretty_nat_digits.
  split; [by apply pretty_nat_inj|done].
Qed.

Lemma NoDup_concat_imap {A B} (g : nat → A → list B) (l : list A) :
  (∀ i x, l !! i = Some x → NoDup (g i x)) →
  (∀ i j x y z, l !! i = Some x → l !! j = Some y →
                z ∈ g i x → z ∈ g j y → i = j) →
  NoDup (concat (imap g l)).
Proof.
  revert g. induction l as [|a l IH]; intros g Heach Hapart; simpl.
  - constructor.
  - apply NoDup_app. split; [by apply (Heach 0)|]. split.
    + intros z Hz Hz'. apply elem_of_concat_imap in Hz' as (j & y & Hy & Hin).
      by specialize (Hapart 0 (S j) a y z eq_refl Hy Hz Hin).
    + apply IH.
      * intros i x Hx. by apply (Heach (S i)).
      * intros i j x y z Hx Hy Hz Hz'.
        by specialize (Hapart (S i) (S j) x y z Hx Hy Hz Hz') as [= ->].
Qed.

Lemma NoDup_imap {A B} (h : nat → A → B) (l : list A) :
  (∀ i j x y, l !! i = Some x → l !! j = Some y → h i x = h j y → i = j) →
  NoDup (imap h l).
Proof.
  intros Hinj. apply NoDup_alt. intros i j z.
  rewrite !list_lookup_imap.
  destruct (l !! i) as [x|] eqn:Hx, (l !! j) as [y|] eqn:Hy; simpl; try done.
  intros [= <-] [= Heq]. by apply (Hinj i j x y).
Qed.

Lemma fmap_concat_imap {A B C} (f : B → C) (g : nat → A → list B)
    (l : list A) :
  f <$> concat (imap g l) = concat (imap (λ i x, f <$> g i x) l).
Proof.
  revert g. induction l as [|a l IH]; intros g; [done|].
  simpl. by rewrite fmap_app, IH.
Qed.

Lemma append_empty_r (s : string) : s +:+ "" = s.
Proof. induction s as [|c s IH]; [done|]. unfold String.app in *. simpl. by f_equal. Qed.


Lemma containerFields_names doc i c :
  name <$> containerFields doc i c
  = (λ r, "question_" +:+ pretty i +:+ r) <$> suffixes doc c.
Proof.
  unfold containerFields, suffixes, radioGroup, checkboxFields, textFields,
    selectFields.
  rewrite !fmap_app, !fmap_imap. f_equal.
  destruct (querySelectorAll doc c radioInput); [done|].
  simpl. by rewrite append_empty_r.
Qed.

Lemma suffixes_separated doc c : Forall separated (suffixes doc c).
Proof.
  unfold suffixes. rewrite !Forall_app. repeat split.
  - destruct (querySelectorAll doc c radioInput); repeat constructor.
  - apply Forall_imap_intro. intros. right. by eexists.
  - apply Forall_imap_intro. intros. right. by eexists.
  - apply Forall_imap_intro. intros. right. by eexists.
Qed.

Lemma NoDup_counter {A} (kind : string) (l : list A) :
  NoDup (imap (λ j _, kind +:+ pretty j) l).
Proof.
  apply NoDup_imap. intros i j _ _ _ _ Heq.
  by apply String.app_inj, pretty_nat_inj in Heq.
Qed.

Lemma suffixes_NoDup doc c : NoDup (suffixes doc c).
Proof.
  unfold suffixes.
  repeat (apply NoDup_app; split; [|split]);
    try apply NoDup_counter;
    try (destruct (querySelectorAll doc c radioInput);
         [apply NoDup_nil_2|apply NoDup_singleton]).
  all: intros r Hr Hr'; rewrite ?elem_of_app in Hr';
    repeat match goal with
    | H : _ ∨ _ |- _ => destruct H
    | H : _ ∈ imap _ _ |- _ =>
        apply elem_of_lookup_imap in H as (? & ? & ? & _)
    | H : _ ∈ match ?l with _ => _ end |- _ => destruct l
    | H : _ ∈ [] |- _ => by apply not_elem_of_nil in H
    | H : _ ∈ [_] |- _ => apply list_elem_of_singleton in H
    end; by simplify_eq.
Qed.

Lemma containerFields_names_NoDup doc i c :
  NoDup (name <$> containerFields doc i c).
Proof.
  rewrite containerFields_names.
  apply (NoDup_fmap_2 _), suffixes_NoDup.
Qed.

Lemma containerPass_names_NoDup doc : NoDup (name <$> containerPass doc).
Proof.
  unfold containerPass. rewrite fmap_concat_imap.
  apply NoDup_concat_imap.
  - intros i c _. apply containerFields_names_NoDup.
  - intros i j c c' z _ _. rewrite !containerFields_names.
    intros (r & -> & Hr)%list_elem_of_fmap (r' & Heq & Hr')%list_elem_of_fmap.
    apply String.app_inj in Heq.
    pose proof (suffixes_separated doc c) as Hsep.
    pose proof (suffixes_separated doc c') as Hsep'.
    rewrite Forall_forall in Hsep, Hsep'.
    by apply numeral_then_separator in Heq as [-> _]; auto.
Qed.

Lemma containerPass_names_question doc z :
  z ∈ name <$> containerPass doc → ∃ r, z = "question_" +:+ r.
Proof.
  unfold containerPass. rewrite fmap_concat_imap, elem_of_concat_imap.
  intros (i & c & _ & Hz). rewrite containerFields_names in Hz.
  apply list_elem_of_fmap in Hz as (r & -> & _). by eexists.
Qed.


Lemma fallbackField_unnamed doc k input z :
  z ∈ name <$> filter (unnamed doc) (fallbackField doc k input) →
  z = "field_" +:+ pretty k.
Proof.
  unfold fallbackField. destruct (closest _ _ _); simpl.
  - intros Hz. by apply not_elem_of_nil in Hz.
  - rewrite filter_cons, filter_nil. case_decide as Hun.
    + intros ->%list_elem_of_singleton. simpl.
      unfold unnamed in Hun. simpl in Hun. by rewrite Hun.
    + intros Hz. by apply not_elem_of_nil in Hz.
Qed.

Lemma fallbackSweep_unnamed_NoDup doc :
  NoDup (name <$> filter (unnamed doc) (fallbackSweep doc)).
Proof.
  unfold fallbackSweep. rewrite filter_concat_imap, fmap_concat_imap.
  apply NoDup_concat_imap.
  - intros k input _. unfold fallbackField.
    destruct (closest _ _ _); [apply NoDup_nil_2|].
    rewrite filter_cons, filter_nil.
    case_decide; [apply NoDup_singleton|apply NoDup_nil_2].
  - intros i j x y z _ _ ->%fallbackField_unnamed Hz%fallbackField_unnamed.
    by apply String.app_inj, pretty_nat_inj in Hz.
Qed.


(** C2, as stated, fails: the sweep takes a control's own name as the
    identifier, and two controls may share it. *)
Lemma identifiers_can_collide :
  name <$> extractFormFields twinNames = ["email"; "email"]
  ∧ ¬ NoDup (name <$> extractFormFields twinNames).
Proof.
  assert (name <$> extractFormFields twinNames = ["email"; "email"]) as Heq
    by (by vm_compute).
  split; [exact Heq|]. rewrite Heq. intros Hnodup.
  apply NoDup_cons in Hnodup as [Hnotin _]. apply Hnotin. by left.
Qed.

(** C2, amended.  In one discovery pass the identifiers of the
    descriptors of the container pass together with the identifiers of
    the swept descriptors whose control has no name are pairwise
    distinct, whatever the labels.  The former are [question_] and the
    container index, followed by nothing for the radio group or by the
    kind and a running counter of that kind within the container; the
    latter are [field_] and the index in the sweep.  A swept descriptor
    whose control has a name that is not empty takes that name as its
    identifier. *)
Theorem generated_identifiers_distinct doc :
  NoDup (name <$> containerPass doc
                  ++ filter (unnamed doc) (fallbackSweep doc))
  ∧ (∀ containerIndex container,
       name <$> containerFields doc containerIndex container
       = (λ r, "question_" +:+ pretty containerIndex +:+ r)
           <$> suffixes doc container)
  ∧ (∀ index input,
       name <$> filter (unnamed doc) (fallbackField doc index input)
       = const ("field_" +:+ pretty index)
           <$> filter (unnamed doc) (fallbackField doc index input))
  ∧ Forall (λ f, ¬ unnamed doc f → name f = nameProperty doc (element f))
           (fallbackSweep doc).
Proof.
  split; [|split; [|split]].
  4: { apply Forall_forall. intros f Hf Hnamed.
       unfold fallbackSweep in Hf.
       apply elem_of_concat_imap in Hf as (k & input & _ & Hf).
       unfold fallbackField in Hf.
       destruct (closest doc questionContainer input);
         [by apply not_elem_of_nil in Hf|].
       apply list_elem_of_singleton in Hf as ->.
       unfold unnamed in Hnamed. simpl in *.
       unfold orElse, truthy. by rewrite decide_False. }
  2: { intros i c. apply containerFields_names. }
  2: { intros k input. apply list_eq_Forall2, Forall2_fmap, Forall2_same_length_lookup.
       split; [done|]. intros j f g Hf Hg. rewrite Hf in Hg. simplify_eq.
       apply (fallbackField_unnamed doc k input).
       apply list_elem_of_fmap_2, list_elem_of_lookup. eauto. }
  rewrite fmap_app. apply NoDup_app. split; [|split].
  - apply containerPass_names_NoDup.
  - intros z [r ->]%containerPass_names_question Hz.
    unfold fallbackSweep in Hz.
    rewrite filter_concat_imap, fmap_concat_imap, elem_of_concat_imap in Hz.
    destruct Hz as (k & input & _ & Hz%fallbackField_unnamed). done.
  - apply fallbackSweep_unnamed_NoDup.
Qed.

(** Labels do repeat while the identifiers stay apart. *)
Example repeated_labels_distinct_identifiers :
  let doc :=
    tag "html" [] [
      tag "div" [("class", "m2")] [
        tag "h3" [] [Text "Contact"];
        tag "input" [("type", "text")] [];
        tag "input" [("type", "email")] []
      ];
      tag "input" [] [];
      tag "input" [] []
    ] in
  (label <$> extractFormFields doc)
  = ["Contact"; "Contact"; "Unknown field"; "Unknown field"]
  ∧ (name <$> extractFormFields doc)
    = ["question_0_text_0"; "question_0_text_1"; "field_2"; "field_3"].
Proof. split; by vm_compute. Qed.

(** ** The two label helpers *)

(** The helper of the text script is the discovery helper without the
    walk over the earlier siblings: where that walk finds nothing the
    two agree. *)
Lemma findLabelText_without_sibling doc el :
  labelBySibling doc el = None →
  TextScript.findLabelText doc el = findLabelForInput doc el.
Proof.
  intros Hnone. unfold TextScript.findLabelText, findLabelForInput.
  by rewrite Hnone.
Qed.

(** An explicit or a wrapping label decides both helpers alike. *)
Lemma findLabelText_labelled doc el l :
  labelByFor doc el = Some l
  ∨ (labelByFor doc el = None ∧ labelByAncestor doc el = Some l) →
  TextScript.findLabelText doc el = l ∧ findLabelForInput doc el = l.
Proof.
  unfold TextScript.findLabelText, findLabelForInput.
  by intros [-> | [-> ->]].
Qed.

(** The checkbox helper is the text helper without the placeholder. *)
Lemma CheckboxScript_findLabelText_without_placeholder doc el :
  truthy (getAttribute doc el "placeholder") = None →
  CheckboxScript.findLabelText doc el = TextScript.findLabelText doc el.
Proof.
  intros Hnone. unfold CheckboxScript.findLabelText, TextScript.findLabelText.
  by rewrite Hnone.
Qed.

(** C1.  On the text input of [colorForm], which follows its label
    element as a sibling and carries a placeholder, the discovery
    helper [findLabelForInput] answers with the sibling's text and the
    application helper [findLabelText] with the placeholder: the two
    are not the same function.  The descriptor discovered for that
    input is then not found again, and its value is not applied. *)
Theorem label_helpers_differ :
  findLabelForInput colorForm [0; 1; 1] = "Name"
  ∧ TextScript.findLabelText colorForm [0; 1; 1] = "Your name"
  ∧ [0; 1; 1] ∈ element <$> extractFormFields colorForm
  ∧ [0; 1; 1] ∈ documentQuerySelectorAll colorForm textControl
  ∧ fillForm (extractFormFields colorForm) {[ "Name" := JString "Ada" ]}
      (freshPage colorForm)
    = freshPage colorForm.
Proof.
  split; [by vm_compute|]. split; [by vm_compute|].
  split; [|split].
  - rewrite extractFormFields_colorForm. simpl. repeat constructor.
  - assert (documentQuerySelectorAll colorForm textControl = [[0; 1; 1]])
      as -> by (by vm_compute).
    by left.
  - by vm_compute.
Qed.

(** * More of the engine *)

(** ** Queries, continued *)

Lemma subtree_app doc c r :
  subtree doc (c ++ r) = subtree doc c ≫= λ n, subtree n r.
Proof.
  revert doc. induction c as [|i c IH]; intros doc; [done|].
  simpl. destruct doc as [s|e ks]; [done|].
  destruct (ks !! i) as [k|]; [apply IH|done].
Qed.

Lemma tail_allElements n r :
  r ∈ tail (allElements n) ↔ r ≠ [] ∧ r ∈ allElements n.
Proof.
  destruct n as [s|e ks].
  - simpl. split; [intros Hr|intros [_ Hr]]; by apply not_elem_of_nil in Hr.
  - rewrite allElements_Elem. simpl. rewrite elem_of_cons. split.
    + intros Hr. split; [|by right].
      by apply childElements_head in Hr as (j & r' & -> & _).
    + by intros [Hne [->|Hr]].
Qed.

(** The answer of a container query: the elements strictly below the
    container that the selector matches. *)
Lemma elem_of_querySelectorAll doc c s p :
  p ∈ querySelectorAll doc c s
  ↔ matches doc s p = true ∧ ∃ r, r ≠ [] ∧ p = c ++ r.
Proof.
  unfold querySelectorAll. rewrite list_elem_of_filter, list_elem_of_fmap.
  unfold matches at 1. rewrite Is_true_true. split.
  - intros [Hm (r & -> & Hr)]. split; [done|]. exists r. split; [|done].
    destruct (subtree doc c) as [n|]; simpl in Hr.
    + by apply tail_allElements in Hr as [? _].
    + by apply not_elem_of_nil in Hr.
  - intros [Hm (r & Hne & ->)]. split; [done|]. exists r. split; [done|].
    unfold matches, elementAt in Hm. rewrite subtree_app in Hm.
    destruct (subtree doc c) as [n|]; simpl in *; [|done].
    apply tail_allElements. split; [done|]. apply elem_of_allElements.
    unfold elementAt. destruct (subtree n r) as [[?|e ks]|]; by eauto.
Qed.

Lemma elem_of_documentQuerySelectorAll doc s p :
  p ∈ documentQuerySelectorAll doc s ↔ matches doc s p = true.
Proof.
  split; [apply documentQuerySelectorAll_matches|].
  intros Hm. unfold documentQuerySelectorAll. apply list_elem_of_filter.
  split; [by apply Is_true_true|]. apply elem_of_allElements.
  unfold matches in Hm. by destruct (elementAt doc p); [eexists|].
Qed.

Lemma elem_of_inclusiveAncestors p q :
  q ∈ inclusiveAncestors p ↔ ∃ r, p = q ++ r.
Proof.
  split.
  - unfold inclusiveAncestors. intros (k & -> & _)%list_elem_of_fmap.
    exists (drop k p). by rewrite take_drop.
  - intros [r ->]. apply inclusiveAncestors_prefix.
Qed.

Lemma closest_None doc s p :
  closest doc s p = None ↔ ∀ q r, p = q ++ r → matches doc s q = false.
Proof.
  unfold closest. rewrite head_None. split.
  - intros Hnil q r ->. destruct (matches doc s q) eqn:Hm; [|done].
    exfalso. eapply (filter_nil_not_elem_of _ _ q Hnil).
    + by apply Is_true_true.
    + apply inclusiveAncestors_prefix.
  - intros Hall. apply filter_none, Forall_forall.
    intros q [r ->]%elem_of_inclusiveAncestors Hm.
    apply Is_true_true in Hm. by rewrite (Hall q r) in Hm.
Qed.

Lemma closest_Some doc s p q :
  closest doc s p = Some q → matches doc s q = true ∧ ∃ r, p = q ++ r.
Proof.
  unfold closest. intros Hq.
  assert (q ∈ filter (λ q, matches doc s q) (inclusiveAncestors p)) as Hin.
  { destruct (filter _ _) as [|x l]; simplify_eq/=. by left. }
  apply list_elem_of_filter in Hin as [Hm Hin].
  split; [by apply Is_true_true|by apply elem_of_inclusiveAncestors].
Qed.

Lemma precedes_irrefl p : ¬ precedes p p.
Proof.
  induction p as [|i p IH]; simpl; [by intros []|].
  intros [?|[_ ?]]; [lia|done].
Qed.

Lemma StronglySorted_precedes_NoDup (l : list path) :
  StronglySorted precedes l → NoDup l.
Proof.
  induction 1 as [|p l _ IH Hp]; constructor; [|done].
  intros Hin. rewrite Forall_forall in Hp.
  by apply (precedes_irrefl p), Hp.
Qed.

(** On a list in document order [find] answers with the first match:
    every other match comes later. *)
Lemma find_first_in_order (f : path → bool) (l : list path) p :
  StronglySorted precedes l → List.find f l = Some p →
  p ∈ l ∧ f p = true ∧ ∀ q, q ∈ l → f q = true → q = p ∨ precedes p q.
Proof.
  intros Hsorted Hfind. destruct (find_Some_elem f l p Hfind) as [Hin Hp].
  split; [done|]. split; [done|].
  induction Hsorted as [|a l Hl IH Ha]; simpl in Hfind; [done|].
  intros q Hq Hfq. destruct (f a) eqn:Hfa.
  - injection Hfind as ->. apply elem_of_cons in Hq as [->|Hq]; [by left|].
    right. rewrite Forall_forall in Ha. by apply Ha.
  - apply elem_of_cons in Hq as [->|Hq]; [congruence|].
    apply IH; try done. by destruct (find_Some_elem f l p Hfind).
Qed.

Lemma find_is_Some {A} (f : A → bool) (l : list A) x :
  x ∈ l → f x = true → is_Some (List.find f l).
Proof.
  intros Hin Hx. destruct (List.find f l) eqn:Hfind; [by eexists|].
  apply list_elem_of_In in Hin.
  by rewrite (find_none f l Hfind x Hin) in Hx.
Qed.

(** ** Which controls discovery covers *)

Lemma fallbackField_elements doc (l : list path)
    (h : nat → path → list FormField) :
  (∀ i p, ∃ k, h i p = fallbackField doc k p) →
  element <$> concat (imap h l)
  = filter (λ p, closest doc questionContainer p = None) l.
Proof.
  revert h. induction l as [|p l IH]; intros h Hh; [done|].
  simpl. rewrite fmap_app, (IH (h ∘ S)), filter_cons.
  - destruct (Hh 0 p) as [k ->]. unfold fallbackField.
    destruct (closest doc questionContainer p); by case_decide.
  - intros i q. apply Hh.
Qed.

Lemma fallbackField_labels doc (l : list path)
    (h : nat → path → list FormField) :
  (∀ i p, ∃ k, h i p = fallbackField doc k p) →
  label <$> concat (imap h l)
  = findLabelForInput doc
      <$> filter (λ p, closest doc questionContainer p = None) l.
Proof.
  revert h. induction l as [|p l IH]; intros h Hh; [done|].
  simpl. rewrite fmap_app, (IH (h ∘ S)), filter_cons.
  - destruct (Hh 0 p) as [k ->]. unfold fallbackField.
    destruct (closest doc questionContainer p); by case_decide.
  - intros i q. apply Hh.
Qed.

Lemma fallbackSweep_elements doc :
  element <$> fallbackSweep doc
  = filter (λ p, closest doc questionContainer p = None)
           (documentQuerySelectorAll doc textControlOrUntyped).
Proof. apply fallbackField_elements; eauto. Qed.

(** X1.  The fallback sweep emits one descriptor for each text control
    that has no question container at or above it, and for no other
    element: each such control once, in document order, labelled by
    [findLabelForInput]. *)
Theorem sweep_is_the_unclaimed_text_controls doc :
  element <$> fallbackSweep doc
  = filter (λ p, closest doc questionContainer p = None)
           (documentQuerySelectorAll doc textControlOrUntyped)
  ∧ label <$> fallbackSweep doc
    = findLabelForInput doc <$> (element <$> fallbackSweep doc)
  ∧ NoDup (element <$> fallbackSweep doc)
  ∧ StronglySorted precedes (element <$> fallbackSweep doc).
Proof.
  pose proof (fallbackSweep_elements doc) as Helements.
  assert (StronglySorted precedes (element <$> fallbackSweep doc)) as Hsorted.
  { rewrite Helements.
    apply StronglySorted_filter, documentQuerySelectorAll_sorted. }
  split; [done|]. split; [|split; [|done]].
  - rewrite Helements. apply fallbackField_labels; eauto.
  - by apply StronglySorted_precedes_NoDup.
Qed.

Lemma containerFields_text_member doc i c j p :
  querySelectorAll doc c textControlOrUntyped !! j = Some p →
  {| type := textKind doc p;
     label := questionTextAt doc c i;
     name := "question_" +:+ pretty i +:+ "_text_" +:+ pretty j;
     required := requiredProperty doc p;
     options := None;
     element := p |} ∈ containerFields doc i c.
Proof.
  intros Hp. unfold containerFields. rewrite !elem_of_app.
  right; right; left. unfold textFields.
  apply elem_of_lookup_imap. by exists j, p.
Qed.

Lemma claimed_below_container doc p :
  p ∈ claimedControls doc →
  ∃ c r, matches doc questionContainer c = true ∧ r ≠ [] ∧ p = c ++ r.
Proof.
  unfold claimedControls. rewrite elem_of_concat.
  intros (ps & Hp & (c & -> & Hc)%list_elem_of_fmap).
  apply documentQuerySelectorAll_matches in Hc. exists c.
  unfold containerControls in Hp. rewrite !elem_of_app in Hp.
  destruct Hp as [Hp|[Hp|[Hp|Hp]]];
    apply elem_of_querySelectorAll in Hp as [_ (r & Hr & ->)]; by exists r.
Qed.

(** X2.  Where a text control ends up.  With no question container at
    or above it, the sweep emits a descriptor for it.  Below a question
    container, that container emits a text descriptor for it, under the
    container's index and a text counter, so a control below two nested
    containers is emitted by both.  A text control that itself matches
    the container selector, with no container above it, gets no
    descriptor at all. *)
Theorem where_a_text_control_goes doc p :
  p ∈ documentQuerySelectorAll doc textControlOrUntyped →
  (closest doc questionContainer p = None →
   p ∈ element <$> fallbackSweep doc)
  ∧ (∀ c r, matches doc questionContainer c = true → r ≠ [] → p = c ++ r →
       ∃ (i j : nat) f,
         documentQuerySelectorAll doc questionContainer !! i = Some c
         ∧ f ∈ containerPass doc
         ∧ element f = p
         ∧ name f = "question_" +:+ pretty i +:+ "_text_" +:+ pretty j
         ∧ label f = questionTextAt doc c i)
  ∧ (matches doc questionContainer p = true →
     (∀ c r, r ≠ [] → p = c ++ r → matches doc questionContainer c = false) →
     p ∉ element <$> extractFormFields doc).
Proof.
  intros Hp. split; [|split].
  - intros Hnone.
    rewrite fallbackSweep_elements. by apply list_elem_of_filter.
  - intros c r Hc Hr ->.
    apply elem_of_documentQuerySelectorAll in Hc.
    apply list_elem_of_lookup in Hc as [i Hi].
    assert (c ++ r ∈ querySelectorAll doc c textControlOrUntyped) as Hq.
    { apply elem_of_querySelectorAll. split; [|by exists r].
      by apply documentQuerySelectorAll_matches in Hp. }
    apply list_elem_of_lookup in Hq as [j Hj].
    eexists i, j, _. split; [done|]. split.
    + unfold containerPass. apply elem_of_concat_imap.
      exists i, c. split; [done|]. by apply containerFields_text_member.
    + done.
  - intros Hself Habove. unfold extractFormFields.
    rewrite fmap_app, elem_of_app. intros [Hin|Hin].
    + apply list_elem_of_fmap in Hin as (f & -> & Hf).
      apply containerPass_claims, claimed_below_container in Hf
        as (c & r & Hc & Hr & Heq).
      by rewrite (Habove c r Hr Heq) in Hc.
    + apply list_elem_of_fmap in Hin as (f & -> & Hf).
      apply fallbackSweep_unclaimed in Hf.
      rewrite closest_None in Hf.
      rewrite (Hf (element f) []) in Hself; [done|by rewrite app_nil_r].
Qed.

Lemma where_a_text_control_goes_witness :
  [0; 0; 1; 1] ∈ documentQuerySelectorAll nestedForm textControlOrUntyped
  ∧ (name <$> filter (λ f, element f = [0; 0; 1; 1])
                     (extractFormFields nestedForm))
    = ["question_0_text_0"; "question_1_text_0"]
  ∧ ∃ (i j : nat) f,
      documentQuerySelectorAll nestedForm questionContainer !! i
      = Some [0; 0]
      ∧ f ∈ containerPass nestedForm
      ∧ element f = [0; 0; 1; 1]
      ∧ name f = "question_" +:+ pretty i +:+ "_text_" +:+ pretty j
      ∧ label f = questionTextAt nestedForm [0; 0] i.
Proof.
  assert ([0; 0; 1; 1]
          ∈ documentQuerySelectorAll nestedForm textControlOrUntyped) as Hp.
  { apply elem_of_documentQuerySelectorAll. by vm_compute. }
  split; [exact Hp|]. split; [by vm_compute|].
  apply (proj1 (proj2 (where_a_text_control_goes nestedForm [0; 0; 1; 1] Hp))
           [0; 0] [1; 1]); [by vm_compute|done|done].
Defined.

(** X3.  In a document without any question container, discovery
    emits exactly the text controls, in document order: radios,
    checkboxes and selects outside a container are never discovered. *)
Theorem without_containers_only_text_controls doc :
  documentQuerySelectorAll doc questionContainer = [] →
  element <$> extractFormFields doc
  = documentQuerySelectorAll doc textControlOrUntyped
  ∧ Forall (λ f, type f = "text" ∨ type f = "textarea")
           (extractFormFields doc).
Proof.
  intros Hnone. unfold extractFormFields, containerPass. rewrite Hnone.
  simpl. split; [|apply fallbackSweep_type].
  rewrite fallbackSweep_elements.
  apply filter_all, Forall_forall. intros p _. apply closest_None.
  intros q r -> . destruct (matches doc questionContainer q) eqn:Hq; [|done].
  apply elem_of_documentQuerySelectorAll in Hq. rewrite Hnone in Hq.
  by apply not_elem_of_nil in Hq.
Qed.

Lemma without_containers_only_text_controls_witness :
  documentQuerySelectorAll looseForm questionContainer = []
  ∧ length (documentQuerySelectorAll looseForm radioInput) = 3
  ∧ element <$> extractFormFields looseForm = [[0; 5]]
  ∧ element <$> extractFormFields looseForm
    = documentQuerySelectorAll looseForm textControlOrUntyped.
Proof.
  assert (documentQuerySelectorAll looseForm questionContainer = [])
    as Hnone by (by vm_compute).
  split; [exact Hnone|]. split; [by vm_compute|]. split; [by vm_compute|].
  exact (proj1 (without_containers_only_text_controls looseForm Hnone)).
Defined.

Lemma orElse_nonempty a b : b ≠ "" → orElse a b ≠ "".
Proof.
  intros Hb. unfold orElse, truthy.
  destruct a as [s|]; simpl; [|done]. by case_decide.
Qed.

Lemma questionTextAt_nonempty doc c i : questionTextAt doc c i ≠ "".
Proof. by apply orElse_nonempty. Qed.

Lemma append_nonempty s t : s ≠ "" → s +:+ t ≠ "".
Proof. by destruct s. Qed.

(** X4.  Every descriptor of the container pass has a label that is
    not empty: the question text falls back to [Question n] when the
    container has no title or an empty one. *)
Theorem container_labels_are_not_empty doc :
  Forall (λ f, label f ≠ "") (containerPass doc).
Proof.
  unfold containerPass. apply Forall_concat, Forall_imap_intro.
  intros i c _. unfold containerFields. rewrite !Forall_app.
  pose proof (questionTextAt_nonempty doc c i) as Hq.
  repeat split.
  - unfold radioGroup. destruct (querySelectorAll doc c radioInput);
      repeat constructor. done.
  - apply Forall_imap_intro. intros j cb _. simpl. by apply append_nonempty.
  - by apply Forall_imap_intro.
  - by apply Forall_imap_intro.
Qed.





(** ** What application does to the page *)

Lemma prefix_refl s : String.prefix s s = true.
Proof.
  induction s as [|c s IH]; [done|]. simpl.
  by destruct (ascii_dec c c).
Qed.

Lemma includes_refl s : includes s s = true.
Proof.
  destruct s as [|c s]; [done|]. simpl.
  destruct (ascii_dec c c); [|done]. by rewrite prefix_refl.
Qed.

Lemma includes_empty s : includes s "" = true.
Proof. by destruct s. Qed.

Lemma touchesOnlyControls_refl pg : touchesOnlyControls pg pg.
Proof. repeat split; try done. exists []. by rewrite app_nil_r. Qed.

Lemma touchesOnlyControls_trans pg1 pg2 pg3 :
  touchesOnlyControls pg1 pg2 → touchesOnlyControls pg2 pg3 →
  touchesOnlyControls pg1 pg3.
Proof.
  intros (Hd & Hv & Hc & [ev Hev]) (Hd' & Hv' & Hc' & [ev' Hev']).
  rewrite Hd in Hv', Hc'. split; [congruence|]. split; [|split].
  - intros p Hne.
    destruct (decide (dirtyValue pg2 !! p = dirtyValue pg1 !! p)) as [Heq|?];
      [|by apply Hv].
    apply Hv'. congruence.
  - intros p Hne.
    destruct (decide (checkedProperty pg2 p = checkedProperty pg1 p))
      as [Heq|?]; [|by apply Hc].
    apply Hc'. congruence.
  - exists (ev ++ ev'). by rewrite Hev', Hev, app_assoc.
Qed.

Lemma click_touches p pg : touchesOnlyControls pg (click p pg).
Proof.
  unfold click.
  destruct (disabledProperty (document pg) p);
    [apply touchesOnlyControls_refl|].
  destruct (matches (document pg) checkboxInput p) eqn:Hbox.
  { repeat split; simpl; try done.
    - intros q Hne. left.
      destruct (decide (q = p)) as [->|Hqp]; [done|]. exfalso. apply Hne.
      unfold checkedProperty. simpl. apply bool_decide_ext.
      destruct (bool_decide (p ∈ checkedness pg));
        [rewrite elem_of_difference|rewrite elem_of_union];
        rewrite elem_of_singleton; tauto.
    - eexists. by rewrite <- !app_assoc. }
  destruct (matches (document pg) radioInput p) eqn:Hradio.
  { destruct (checkedProperty pg p).
    - repeat split; simpl; try done. by eexists.
    - repeat split; simpl; try done.
      + intros q Hne. right.
        destruct (decide (q = p)) as [->|Hqp]; [done|].
        destruct (decide (q ∈ radioGroupOf (document pg) p)) as [Hq|Hq].
        * apply list_elem_of_filter in Hq as [_ Hq].
          by apply documentQuerySelectorAll_matches.
        * exfalso. apply Hne. unfold checkedProperty. simpl.
          apply bool_decide_ext.
          rewrite elem_of_union, elem_of_difference, elem_of_singleton,
            elem_of_list_to_set. tauto.
      + eexists. by rewrite <- !app_assoc. }
  repeat split; simpl; try done. by eexists.
Qed.

Lemma fillField_touches field value pg :
  touchesOnlyControls pg (fillField field value pg).
Proof.
  unfold fillField. repeat case_decide; try apply touchesOnlyControls_refl.
  - unfold TextScript.run.
    destruct (TextScript.find (document pg) (label field)) as [input|]
      eqn:Hfind; [|apply touchesOnlyControls_refl].
    apply find_Some_elem in Hfind as [Hin _].
    apply documentQuerySelectorAll_matches in Hin.
    repeat split; simpl; try done.
    + intros p Hne. left.
      destruct (decide (p = input)) as [->|Hp]; [done|].
      by rewrite lookup_insert_ne in Hne.
    + eexists. by rewrite <- !app_assoc.
  - destruct (offers field value); [|apply touchesOnlyControls_refl].
    unfold RadioScript.run. destruct (RadioScript.find _ _ _);
      [apply click_touches|apply touchesOnlyControls_refl].
  - destruct value; try apply touchesOnlyControls_refl.
    unfold CheckboxScript.run. destruct (CheckboxScript.find _ _);
      [|apply touchesOnlyControls_refl].
    case_bool_decide; [apply click_touches|apply touchesOnlyControls_refl].
  - destruct (offers field value); [|apply touchesOnlyControls_refl].
    unfold SelectScript.run.
    destruct (SelectScript.find (document pg) (label field)) as [select|]
      eqn:Hfind; [|apply touchesOnlyControls_refl].
    apply find_Some_elem in Hfind as [Hin _].
    apply documentQuerySelectorAll_matches in Hin.
    repeat split; simpl; try done.
    + intros p Hne. right.
      destruct (decide (p = select)) as [->|Hp]; [done|].
      by rewrite lookup_insert_ne in Hne.
    + by eexists.
Qed.

Lemma fillForm_touches fields formData pg :
  touchesOnlyControls pg (fillForm fields formData pg).
Proof.
  revert pg. induction fields as [|f fields IH]; intros pg; simpl.
  - apply touchesOnlyControls_refl.
  - destruct (nullish _); [apply IH|].
    eapply touchesOnlyControls_trans; [apply fillField_touches|apply IH].
Qed.

Lemma untypedInput_no_text_control doc p :
  matches doc untypedInput p = true →
  matches doc textControl p = false ∧ matches doc selectControl p = false.
Proof.
  unfold matches. destruct (elementAt doc p) as [e|]; simpl; [|done].
  unfold untypedInput, textControl, selectControl, anyOf, inputOfType, both,
    hasTag, hasAttr, attrIs. simpl.
  intros [Htag Htype%negb_true_iff]%andb_true_iff.
  apply bool_decide_eq_true in Htag. apply bool_decide_eq_false in Htype.
  rewrite Htag. simpl.
  rewrite !(bool_decide_eq_false_2 (attributes e !! "type" = Some _)); [done|..];
    intros Heq; apply Htype; by rewrite Heq.
Qed.

(** X6.  Whatever the descriptors and the value mapping, [fillForm]
    leaves the tree alone, assigns values only to typed text controls,
    textareas and selects, changes the checked state only of checkbox
    and radio inputs, and only adds events.  In particular an input
    without a type attribute, which discovery does emit, is never
    written. *)
Theorem application_touches_only_controls fields formData pg :
  document (fillForm fields formData pg) = document pg
  ∧ (∀ p, dirtyValue (fillForm fields formData pg) !! p
          ≠ dirtyValue pg !! p →
          matches (document pg) textControl p = true
          ∨ matches (document pg) selectControl p = true)
  ∧ (∀ p, checkedProperty (fillForm fields formData pg) p
          ≠ checkedProperty pg p →
          matches (document pg) checkboxInput p = true
          ∨ matches (document pg) radioInput p = true)
  ∧ (∃ events,
       dispatched (fillForm fields formData pg) = dispatched pg ++ events)
  ∧ (∀ p, matches (document pg) untypedInput p = true →
          dirtyValue (fillForm fields formData pg) !! p
          = dirtyValue pg !! p).
Proof.
  destruct (fillForm_touches fields formData pg) as (Hd & Hv & Hc & Hev).
  repeat split; try done.
  intros p Hp. apply untypedInput_no_text_control in Hp as [Ht Hs].
  destruct (decide (dirtyValue (fillForm fields formData pg) !! p
                    = dirtyValue pg !! p)) as [|Hne]; [done|].
  destruct (Hv p Hne); congruence.
Qed.

(** An input without a type attribute is discovered. *)
Example untyped_input_is_discovered :
  extractFormFields
    (tag "html" [] [tag "div" [("class", "m2")]
                      [tag "h2" [] [Text "Name"]; tag "input" [] []]])
  = [ {| type := "text"; label := "Name"; name := "question_0_text_0";
         required := false; options := None; element := [0; 1] |} ]
  ∧ matches (tag "html" [] [tag "div" [("class", "m2")]
                              [tag "h2" [] [Text "Name"]; tag "input" [] []]])
            untypedInput [0; 1] = true.
Proof. split; by vm_compute. Qed.

(** X7.  When some text control's inferred label matches the label of a
    text or textarea descriptor, applying a value writes it, as a
    string, to exactly one control: the first matching text control in
    document order.  The [input] event and then the [change] event are
    dispatched on that control, and nothing else changes. *)
Theorem text_application_writes_first_match field value pg q :
  type field = "text" ∨ type field = "textarea" →
  q ∈ documentQuerySelectorAll (document pg) textControl →
  matchesEitherWay (TextScript.findLabelText (document pg) q) (label field)
  = true →
  ∃ input,
    (input = q ∨ precedes input q)
    ∧ input ∈ documentQuerySelectorAll (document pg) textControl
    ∧ matchesEitherWay (TextScript.findLabelText (document pg) input)
                       (label field) = true
    ∧ dirtyValue (fillField field value pg)
      = <[input := toString value]> (dirtyValue pg)
    ∧ checkedness (fillField field value pg) = checkedness pg
    ∧ dispatched (fillField field value pg)
      = dispatched pg ++ [(input, "input"); (input, "change")].
Proof.
  intros Hty Hq Hmatch.
  destruct (find_is_Some
              (λ el, matchesEitherWay
                       (TextScript.findLabelText (document pg) el)
                       (label field))
              (documentQuerySelectorAll (document pg) textControl) q Hq Hmatch)
    as [input Hfind].
  destruct (find_first_in_order _ _ input
              (documentQuerySelectorAll_sorted _ _) Hfind)
    as (Hin & Hinput & Hfirst).
  exists input. split.
  { destruct (Hfirst q Hq Hmatch) as [->|?]; auto. }
  split; [done|]. split; [done|].
  unfold fillField. rewrite decide_True by done.
  unfold TextScript.run, TextScript.find. rewrite Hfind. simpl.
  by rewrite <- app_assoc.
Qed.

Lemma text_application_writes_first_match_witness :
  [0; 0; 3] ∈ documentQuerySelectorAll planForm textControl
  ∧ matchesEitherWay (TextScript.findLabelText planForm [0; 0; 3]) "Plan"
    = true
  ∧ ∃ input,
      (input = [0; 0; 3] ∨ precedes input [0; 0; 3])
      ∧ input ∈ documentQuerySelectorAll planForm textControl
      ∧ matchesEitherWay (TextScript.findLabelText planForm input)
                         (label planNotes) = true
      ∧ dirtyValue (fillField planNotes (JString "n/a") (freshPage planForm))
        = <[input := "n/a"]> ∅
      ∧ checkedness (fillField planNotes (JString "n/a") (freshPage planForm))
        = ∅
      ∧ dispatched (fillField planNotes (JString "n/a") (freshPage planForm))
        = [] ++ [(input, "input"); (input, "change")].
Proof.
  assert ([0; 0; 3] ∈ documentQuerySelectorAll planForm textControl) as Hq.
  { apply elem_of_documentQuerySelectorAll. by vm_compute. }
  split; [exact Hq|]. split; [by vm_compute|].
  apply (text_application_writes_first_match planNotes (JString "n/a")
           (freshPage planForm) [0; 0; 3]); [by left|exact Hq|by vm_compute].
Defined.

Lemma click_dirtyValue p pg : dirtyValue (click p pg) = dirtyValue pg.
Proof. unfold click. repeat case_match; reflexivity. Qed.

Lemma click_checkbox_others p q pg :
  matches (document pg) checkboxInput p = true → q ≠ p →
  checkedProperty (click p pg) q = checkedProperty pg q.
Proof.
  intros Hp Hq. unfold click.
  destruct (disabledProperty (document pg) p); [done|]. rewrite Hp.
  unfold checkedProperty. simpl. apply bool_decide_ext.
  destruct (bool_decide (p ∈ checkedness pg));
    [rewrite elem_of_difference|rewrite elem_of_union];
    rewrite elem_of_singleton; tauto.
Qed.

(** X8.  When some checkbox's inferred label matches the label of a
    checkbox descriptor, applying a boolean acts on the first matching
    checkbox in document order: unless that checkbox is disabled it
    ends up checked exactly when the boolean is true.  No other
    control's checked state changes, and no value is assigned. *)
Theorem checkbox_application_reaches_wanted_state field shouldCheck pg q :
  type field = "checkbox" →
  q ∈ documentQuerySelectorAll (document pg) checkboxInput →
  matchesEitherWay (CheckboxScript.findLabelText (document pg) q)
                   (label field) = true →
  ∃ checkbox,
    (checkbox = q ∨ precedes checkbox q)
    ∧ checkbox ∈ documentQuerySelectorAll (document pg) checkboxInput
    ∧ matchesEitherWay (CheckboxScript.findLabelText (document pg) checkbox)
                       (label field) = true
    ∧ (disabledProperty (document pg) checkbox = false →
       checkedProperty (fillField field (JBool shouldCheck) pg) checkbox
       = shouldCheck)
    ∧ (∀ p, p ≠ checkbox →
            checkedProperty (fillField field (JBool shouldCheck) pg) p
            = checkedProperty pg p)
    ∧ dirtyValue (fillField field (JBool shouldCheck) pg) = dirtyValue pg.
Proof.
  intros Hty Hq Hmatch.
  destruct (find_is_Some
              (λ el, matchesEitherWay
                       (CheckboxScript.findLabelText (document pg) el)
                       (label field))
              (documentQuerySelectorAll (document pg) checkboxInput)
              q Hq Hmatch) as [checkbox Hfind].
  destruct (find_first_in_order _ _ checkbox
              (documentQuerySelectorAll_sorted _ _) Hfind)
    as (Hin & Hbox & Hfirst).
  exists checkbox. split.
  { destruct (Hfirst q Hq Hmatch) as [->|?]; auto. }
  split; [done|]. split; [done|].
  pose proof (documentQuerySelectorAll_matches _ _ _ Hin) as Hm.
  unfold fillField. rewrite Hty. simpl.
  unfold CheckboxScript.run, CheckboxScript.find. rewrite Hfind.
  case_bool_decide as Hne.
  - split; [|split].
    + intros Hd. rewrite click_checkbox_flips by done.
      by destruct (checkedProperty pg checkbox), shouldCheck.
    + intros p Hp. by apply click_checkbox_others.
    + apply click_dirtyValue.
  - split; [|done]. intros _.
    destruct (decide (checkedProperty pg checkbox = shouldCheck)); done.
Qed.

Lemma checkbox_application_reaches_wanted_state_witness :
  [0; 0; 4; 0] ∈ documentQuerySelectorAll colorForm checkboxInput
  ∧ ∃ checkbox,
      (checkbox = [0; 0; 4; 0] ∨ precedes checkbox [0; 0; 4; 0])
      ∧ checkbox ∈ documentQuerySelectorAll colorForm checkboxInput
      ∧ matchesEitherWay (CheckboxScript.findLabelText colorForm checkbox)
                         (label agreeCheckbox) = true
      ∧ (disabledProperty colorForm checkbox = false →
         checkedProperty
           (fillField agreeCheckbox (JBool true) (freshPage colorForm))
           checkbox = true)
      ∧ (∀ p, p ≠ checkbox →
              checkedProperty
                (fillField agreeCheckbox (JBool true) (freshPage colorForm)) p
              = checkedProperty (freshPage colorForm) p)
      ∧ dirtyValue (fillField agreeCheckbox (JBool true) (freshPage colorForm))
        = dirtyValue (freshPage colorForm).
Proof.
  assert ([0; 0; 4; 0] ∈ documentQuerySelectorAll colorForm checkboxInput)
    as Hq.
  { apply elem_of_documentQuerySelectorAll. by vm_compute. }
  split; [exact Hq|].
  apply (checkbox_application_reaches_wanted_state agreeCheckbox true
           (freshPage colorForm) [0; 0; 4; 0]);
    [done|exact Hq|by vm_compute].
Defined.

Lemma click_radio_checks p pg :
  matches (document pg) checkboxInput p = false →
  matches (document pg) radioInput p = true →
  disabledProperty (document pg) p = false →
  checkedProperty (click p pg) p = true.
Proof.
  intros Hbox Hradio Hd. unfold click. rewrite Hd, Hbox, Hradio.
  destruct (checkedProperty pg p) eqn:Hc; [done|].
  unfold checkedProperty. simpl. apply bool_decide_eq_true.
  rewrite elem_of_union, elem_of_singleton. by right.
Qed.

Lemma radio_is_no_checkbox doc p :
  matches doc radioInput p = true → matches doc checkboxInput p = false.
Proof.
  unfold matches. destruct (elementAt doc p) as [e|]; simpl; [|done].
  unfold radioInput, checkboxInput, inputOfType, both, attrIs.
  intros [_ Hty%bool_decide_eq_true]%andb_true_iff.
  rewrite (bool_decide_eq_false_2 (attributes e !! "type" = Some "checkbox"));
    [by rewrite andb_false_r|by rewrite Hty].
Qed.

(** X9.  When the value is among a radio descriptor's options and some
    radio passes the script's test (its wrapping label's text contains
    the value or is contained in it, and its container's title text
    contains the descriptor's label), the radio that is clicked is the
    first such radio in document order; unless disabled it ends up
    checked.  No value is assigned. *)
Theorem radio_application_clicks_first_match field value pg q :
  type field = "radio" →
  offers field value = true →
  q ∈ documentQuerySelectorAll (document pg) radioInput →
  matchesEitherWay (RadioScript.ownLabel (document pg) q) (toString value)
  = true →
  includes (RadioScript.questionText (document pg) q) (label field) = true →
  ∃ radio,
    (radio = q ∨ precedes radio q)
    ∧ radio ∈ documentQuerySelectorAll (document pg) radioInput
    ∧ matchesEitherWay (RadioScript.ownLabel (document pg) radio)
                       (toString value) = true
    ∧ includes (RadioScript.questionText (document pg) radio) (label field)
      = true
    ∧ fillField field value pg = click radio pg
    ∧ (disabledProperty (document pg) radio = false →
       checkedProperty (fillField field value pg) radio = true)
    ∧ dirtyValue (fillField field value pg) = dirtyValue pg.
Proof.
  intros Hty Hoffers Hq Hown Htitle.
  set (test := λ el,
         (includes (RadioScript.ownLabel (document pg) el) (toString value)
          || includes (toString value)
                      (RadioScript.ownLabel (document pg) el))
         && includes (RadioScript.questionText (document pg) el)
                     (label field)).
  assert (test q = true) as Hte by (by apply andb_true_iff).
  destruct (find_is_Some test _ q Hq Hte) as [radio Hfind].
  destruct (find_first_in_order _ _ radio
              (documentQuerySelectorAll_sorted _ _) Hfind)
    as (Hin & [Hr1 Hr2]%andb_true_iff & Hfirst).
  exists radio. split.
  { destruct (Hfirst q Hq Hte) as [->|?]; auto. }
  split; [done|]. split; [done|]. split; [done|].
  assert (fillField field value pg = click radio pg) as ->.
  { unfold fillField. rewrite Hty. simpl. rewrite Hoffers.
    unfold RadioScript.run, RadioScript.find. fold test. by rewrite Hfind. }
  split; [done|]. split; [|apply click_dirtyValue].
  intros Hd. pose proof (documentQuerySelectorAll_matches _ _ _ Hin) as Hm.
  apply click_radio_checks; [by apply radio_is_no_checkbox|done|done].
Qed.

Lemma radio_application_clicks_first_match_witness :
  [0; 0; 2; 0] ∈ documentQuerySelectorAll colorForm radioInput
  ∧ ∃ radio,
      (radio = [0; 0; 2; 0] ∨ precedes radio [0; 0; 2; 0])
      ∧ radio ∈ documentQuerySelectorAll colorForm radioInput
      ∧ matchesEitherWay (RadioScript.ownLabel colorForm radio) "Green" = true
      ∧ includes (RadioScript.questionText colorForm radio)
                 (label colorRadios) = true
      ∧ fillField colorRadios (JString "Green") (freshPage colorForm)
        = click radio (freshPage colorForm)
      ∧ (disabledProperty colorForm radio = false →
         checkedProperty
           (fillField colorRadios (JString "Green") (freshPage colorForm))
           radio = true)
      ∧ dirtyValue
          (fillField colorRadios (JString "Green") (freshPage colorForm))
        = dirtyValue (freshPage colorForm).
Proof.
  assert ([0; 0; 2; 0] ∈ documentQuerySelectorAll colorForm radioInput) as Hq.
  { apply elem_of_documentQuerySelectorAll. by vm_compute. }
  split; [exact Hq|].
  apply (radio_application_clicks_first_match colorRadios (JString "Green")
           (freshPage colorForm) [0; 0; 2; 0]);
    [done|by vm_compute|exact Hq|by vm_compute|by vm_compute].
Defined.

(** ** Labels that match too much, and labels that are found again *)

Lemma find_all_true {A} (f : A → bool) (l : list A) :
  (∀ x, f x = true) → List.find f l = head l.
Proof. intros Hf. destruct l as [|x l]; [done|]. simpl. by rewrite Hf. Qed.

(** X10.  A descriptor whose label is empty matches every control,
    since every string includes the empty string: each script then
    picks the first control of its kind in the document. *)
Theorem empty_label_matches_first_control doc :
  TextScript.find doc "" = head (documentQuerySelectorAll doc textControl)
  ∧ CheckboxScript.find doc ""
    = head (documentQuerySelectorAll doc checkboxInput)
  ∧ SelectScript.find doc ""
    = head (documentQuerySelectorAll doc selectControl).
Proof.
  repeat split; apply find_all_true; intros el;
    unfold matchesEitherWay; by rewrite includes_empty.
Qed.

(** The empty label is one discovery does produce, for a control
    wrapped in a label without text. *)
Example empty_label_is_discovered :
  label <$> extractFormFields emptyLabelForm = [""; "City"].
Proof. by vm_compute. Qed.

(** X11.  A text control whose inferred label is empty matches every
    descriptor label.  When it is the first text control of the
    document, every text or textarea descriptor that is given a value
    is written to it, whatever the descriptor's label. *)
Theorem unlabelled_first_control_takes_every_value field value pg first :
  type field = "text" ∨ type field = "textarea" →
  head (documentQuerySelectorAll (document pg) textControl) = Some first →
  TextScript.findLabelText (document pg) first = "" →
  dirtyValue (fillField field value pg)
  = <[first := toString value]> (dirtyValue pg).
Proof.
  intros Hty Hfirst Hempty. unfold fillField. rewrite decide_True by done.
  unfold TextScript.run, TextScript.find.
  destruct (documentQuerySelectorAll (document pg) textControl)
    as [|x l]; simplify_eq/=.
  rewrite Hempty. unfold matchesEitherWay.
  by rewrite includes_empty, orb_true_r.
Qed.

Lemma unlabelled_first_control_takes_every_value_witness :
  extractFormFields emptyLabelForm
  = [ {| type := "text"; label := ""; name := "field_0"; required := false;
         options := None; element := [0; 0] |};
      cityInput ]
  ∧ head (documentQuerySelectorAll emptyLabelForm textControl) = Some [0; 0]
  ∧ TextScript.findLabelText emptyLabelForm [0; 0] = ""
  ∧ dirtyValue (fillField cityInput (JString "Oslo")
                          (freshPage emptyLabelForm))
    = <[ [0; 0] := "Oslo" ]> ∅.
Proof.
  split; [by vm_compute|]. split; [by vm_compute|]. split; [by vm_compute|].
  apply (unlabelled_first_control_takes_every_value cityInput
           (JString "Oslo") (freshPage emptyLabelForm));
    [by left|by vm_compute|by vm_compute].
Defined.

Lemma findLabelText_not_from_sibling doc el :
  is_Some (labelByFor doc el) ∨ is_Some (labelByAncestor doc el)
  ∨ labelBySibling doc el = None →
  TextScript.findLabelText doc el = findLabelForInput doc el.
Proof.
  unfold TextScript.findLabelText, findLabelForInput.
  intros [[l ->]|[[l ->]| ->]]; [done| |done].
  by destruct (labelByFor doc el).
Qed.

(** X12.  A typed text control whose discovery label does not come
    from the walk over earlier siblings (it has a label bound by
    [for], or lies in a [label] element, or the walk finds nothing) is
    found again under that label, unless an earlier text control
    matches the label too: the control the text script picks is that
    control or one before it. *)
Theorem swept_label_is_found_again doc el :
  el ∈ documentQuerySelectorAll doc textControl →
  is_Some (labelByFor doc el) ∨ is_Some (labelByAncestor doc el)
  ∨ labelBySibling doc el = None →
  ∃ found,
    TextScript.find doc (findLabelForInput doc el) = Some found
    ∧ (found = el ∨ precedes found el).
Proof.
  intros Hel Hsource.
  assert (matchesEitherWay (TextScript.findLabelText doc el)
                           (findLabelForInput doc el) = true) as Hmatch.
  { rewrite findLabelText_not_from_sibling by done.
    unfold matchesEitherWay. by rewrite includes_refl. }
  destruct (find_is_Some
              (λ x, matchesEitherWay (TextScript.findLabelText doc x)
                                     (findLabelForInput doc el))
              _ el Hel Hmatch) as [found Hfind].
  exists found. split; [done|].
  destruct (find_first_in_order _ _ found
              (documentQuerySelectorAll_sorted _ _) Hfind)
    as (_ & _ & Hfirst).
  destruct (Hfirst el Hel Hmatch) as [->|?]; auto.
Qed.

Lemma swept_label_is_found_again_witness :
  [0; 1] ∈ documentQuerySelectorAll boundLabelForm textControl
  ∧ labelByFor boundLabelForm [0; 1] = Some "Name"
  ∧ labelBySibling boundLabelForm [0; 1] = Some "Name"
  ∧ ∃ found,
      TextScript.find boundLabelForm (findLabelForInput boundLabelForm [0; 1])
      = Some found
      ∧ (found = [0; 1] ∨ precedes found [0; 1]).
Proof.
  assert ([0; 1] ∈ documentQuerySelectorAll boundLabelForm textControl) as Hq.
  { apply elem_of_documentQuerySelectorAll. by vm_compute. }
  split; [exact Hq|]. split; [by vm_compute|]. split; [by vm_compute|].
  apply (swept_label_is_found_again boundLabelForm [0; 1] Hq).
  left. vm_compute. by eexists.
Defined.

(** ** Strings, continued *)

Lemma append_cons c s t : String c s +:+ t = String c (s +:+ t).
Proof. reflexivity. Qed.

Lemma append_assoc s t u : (s +:+ t) +:+ u = s +:+ t +:+ u.
Proof.
  induction s as [|c s IH]; [done|]. rewrite !append_cons. by f_equal.
Qed.

Lemma rev_app_append s acc : String.rev_app s acc = String.rev s +:+ acc.
Proof.
  revert acc. induction s as [|c s IH]; intros acc; [done|].
  unfold String.rev. simpl. rewrite (IH (String c acc)), (IH (String c "")).
  by rewrite append_assoc.
Qed.

Lemma rev_cons c s : String.rev (String c s) = String.rev s +:+ String c "".
Proof. unfold String.rev at 1. simpl. apply rev_app_append. Qed.

Lemma rev_append s t : String.rev (s +:+ t) = String.rev t +:+ String.rev s.
Proof.
  induction s as [|c s IH].
  - by rewrite append_empty_r.
  - by rewrite append_cons, !rev_cons, IH, append_assoc.
Qed.

Lemma rev_involutive s : String.rev (String.rev s) = s.
Proof.
  induction s as [|c s IH]; [done|].
  by rewrite rev_cons, rev_append, IH.
Qed.

Lemma occurs_append c s t : occurs c (s +:+ t) = occurs c s || occurs c t.
Proof.
  induction s as [|a s IH]; [done|].
  rewrite append_cons. simpl. by rewrite IH, orb_assoc.
Qed.

Lemma occurs_rev c s : occurs c (String.rev s) = occurs c s.
Proof.
  induction s as [|a s IH]; [done|].
  rewrite rev_cons, occurs_append, IH. simpl.
  by rewrite orb_false_r, orb_comm.
Qed.

(** [dropUntil] splits at the first occurrence. *)
Lemma dropUntil_Some c s t :
  dropUntil c s = Some t
  ↔ ∃ pre rest, s = pre +:+ String c rest ∧ occurs c pre = false
                ∧ t = String c rest.
Proof.
  split.
  - revert t. induction s as [|a s IH]; intros t; simpl; [done|].
    case_decide as Hac.
    + intros [= <-]. subst a. by exists "", s.
    + intros (pre & rest & -> & Hpre & ->)%IH.
      exists (String a pre), rest. rewrite append_cons. simpl.
      by rewrite Hpre, bool_decide_eq_false_2.
  - intros (pre & rest & -> & Hpre & ->).
    induction pre as [|a pre IH]; simpl.
    + by rewrite decide_True.
    + simpl in Hpre. apply orb_false_iff in Hpre as [Ha Hpre].
      apply bool_decide_eq_false in Ha. rewrite ?append_cons. simpl.
      rewrite decide_False by done. by apply IH.
Qed.

Lemma dropUntil_None c s : dropUntil c s = None ↔ occurs c s = false.
Proof.
  induction s as [|a s IH]; simpl; [done|].
  case_decide as Hac.
  - by rewrite bool_decide_eq_true_2.
  - by rewrite bool_decide_eq_false_2.
Qed.

Lemma jsonMatch_braces pre body post :
  occurs "{" pre = false → occurs "}" post = false →
  jsonMatch (pre +:+ "{" +:+ body +:+ "}" +:+ post)
  = Some ("{" +:+ body +:+ "}").
Proof.
  intros Hpre Hpost. unfold jsonMatch.
  assert (dropUntil "{" (pre +:+ "{" +:+ body +:+ "}" +:+ post)
          = Some ("{" +:+ body +:+ "}" +:+ post)) as ->.
  { apply dropUntil_Some. by exists pre, (body +:+ "}" +:+ post). }
  simpl.
  assert (dropUntil "}" (String.rev ("{" +:+ body +:+ "}" +:+ post))
          = Some (String "}" (String.rev ("{" +:+ body)))) as ->.
  { apply dropUntil_Some. exists (String.rev post), (String.rev ("{" +:+ body)).
    rewrite occurs_rev. split; [|done].
    change ("{" +:+ body +:+ "}" +:+ post)
      with (String "{" (body +:+ String "}" post)).
    rewrite !rev_cons, rev_append, rev_cons, !append_assoc.
    change ("{" +:+ body) with (String "{" body).
    by rewrite rev_cons. }
  simpl. f_equal.
  rewrite rev_cons, rev_involutive.
  change ("{" +:+ body) with (String "{" body).
  by rewrite append_cons, <- append_assoc.
Qed.

(** X13.  The JSON text taken from the model's answer is the part from
    the first opening brace to the last closing brace after it,
    whatever surrounds or fills it; there is none exactly when no
    closing brace follows the first opening brace. *)
Theorem jsonMatch_first_to_last_brace text m :
  jsonMatch text = Some m
  ↔ ∃ pre body post,
      text = pre +:+ "{" +:+ body +:+ "}" +:+ post
      ∧ occurs "{" pre = false
      ∧ occurs "}" post = false
      ∧ m = "{" +:+ body +:+ "}".
Proof.
  unfold jsonMatch. split.
  - destruct (dropUntil "{" text) as [fromBrace|] eqn:Hfrom; simpl; [|done].
    apply dropUntil_Some in Hfrom as (pre & rest & -> & Hpre & ->).
    destruct (dropUntil "}" (String.rev (String "{" rest)))
      as [toBrace|] eqn:Hto; simpl; [|done].
    intros [= <-].
    apply dropUntil_Some in Hto as (tsop & ydob & Hrev & Hpost & ->).
    apply (f_equal String.rev) in Hrev.
    rewrite rev_involutive, rev_append, rev_cons in Hrev.
    rewrite append_assoc in Hrev.
    destruct (String.rev ydob) as [|a body] eqn:Hbody.
    { simpl in Hrev. by injection Hrev. }
    rewrite append_cons in Hrev. injection Hrev as <- ->.
    exists pre, body, (String.rev tsop).
    rewrite occurs_rev. repeat split; try done.
    rewrite rev_cons, Hbody. by rewrite append_cons.
  - intros (pre & body & post & -> & Hpre & Hpost & ->).
    fold (jsonMatch (pre +:+ "{" +:+ body +:+ "}" +:+ post)).
    by apply jsonMatch_braces.
Qed.

Lemma jsonMatch_None text :
  jsonMatch text = None
  ↔ occurs "{" text = false
    ∨ ∃ pre rest, text = pre +:+ "{" +:+ rest ∧ occurs "{" pre = false
                  ∧ occurs "}" rest = false.
Proof.
  unfold jsonMatch. split.
  - destruct (dropUntil "{" text) as [fromBrace|] eqn:Hfrom; simpl.
    + apply dropUntil_Some in Hfrom as (pre & rest & -> & Hpre & ->).
      intros Hnone%fmap_None%dropUntil_None. right. exists pre, rest.
      rewrite occurs_rev in Hnone. simpl in Hnone. by repeat split.
    + intros _. left. by apply dropUntil_None.
  - intros [Hnone|(pre & rest & -> & Hpre & Hrest)].
    + apply dropUntil_None in Hnone. by rewrite Hnone.
    + assert (dropUntil "{" (pre +:+ "{" +:+ rest) = Some (String "{" rest))
        as -> by (apply dropUntil_Some; by exists pre, rest).
      simpl. apply fmap_None, dropUntil_None. by rewrite occurs_rev.
Qed.

(** ** The run, continued *)

(** X14.  With descriptors discovered, the run fails as a whole when
    the value mapping cannot be had: the model throws, or its answer
    has no brace-delimited part, or that part does not parse.  The
    entry point then throws after asking the model once; nothing is
    applied and the page is as it was loaded. *)
Theorem failed_mapping_aborts_without_filling
    launches goto generateContent JSON_parse formUrl context pg :
  launches = true →
  goto formUrl = Some pg →
  extractFormFields (document pg) ≠ [] →
  generateContent (prompt (extractFormFields (document pg)) context) = None
  ∨ (∃ text,
       generateContent (prompt (extractFormFields (document pg)) context)
       = Some text
       ∧ (jsonMatch text = None
          ∨ ∃ m, jsonMatch text = Some m ∧ JSON_parse m = None)) →
  autoFillGoogleForm launches goto generateContent JSON_parse formUrl context
  = (Thrown,
     [Launch; Navigate formUrl; Discover;
      AskModel (prompt (extractFormFields (document pg)) context)],
     Some pg).
Proof.
  intros -> Hgoto Hsome Hfail. unfold autoFillGoogleForm. simpl.
  rewrite Hgoto.
  rewrite decide_False by (by destruct (extractFormFields (document pg))).
  assert (generateFormData generateContent JSON_parse
            (extractFormFields (document pg)) context = None) as ->; [|done].
  unfold generateFormData.
  destruct Hfail as [Hg|(text & Hg & Hjson)]; rewrite Hg; simpl; [done|].
  by destruct Hjson as [->|(m & -> & Hm)].
Qed.

Lemma failed_mapping_aborts_without_filling_witness :
  extractFormFields colorForm ≠ []
  ∧ jsonMatch "I cannot help with that." = None
  ∧ autoFillGoogleForm true (λ _, Some (freshPage colorForm))
      (λ _, Some "I cannot help with that.") (λ _, Some ∅)
      "https://forms.example/f" None
    = (Thrown,
       [Launch; Navigate "https://forms.example/f"; Discover;
        AskModel (prompt (extractFormFields colorForm) None)],
       Some (freshPage colorForm)).
Proof.
  assert (extractFormFields colorForm ≠ []) as Hsome
    by (by rewrite extractFormFields_colorForm).
  split; [exact Hsome|]. split; [reflexivity|].
  apply (failed_mapping_aborts_without_filling true
           (λ _, Some (freshPage colorForm))
           (λ _, Some "I cannot help with that.") (λ _, Some ∅)
           "https://forms.example/f" None (freshPage colorForm)
           eq_refl eq_refl Hsome).
  right. exists "I cannot help with that.". split; [done|]. by left.
Defined.

(** X15.  However the run ends, a run that throws has applied
    nothing: [Apply] is not among its actions, and the page it leaves
    is the page as loaded, or none if none was loaded.  And the model
    is asked at most once, right after discovery, and only when
    discovery found something. *)
Theorem thrown_run_applies_nothing
    launches goto generateContent JSON_parse formUrl context
    outcome actions left :
  autoFillGoogleForm launches goto generateContent JSON_parse formUrl context
  = (outcome, actions, left) →
  (outcome = Thrown →
   (Apply ∉ actions) ∧ (left = None ∨ left = goto formUrl))
  ∧ (∀ i text, actions !! i = Some (AskModel text) →
       i = 3
       ∧ actions !! 2 = Some Discover
       ∧ ∃ pg, goto formUrl = Some pg
               ∧ extractFormFields (document pg) ≠ []
               ∧ text = prompt (extractFormFields (document pg)) context).
Proof.
  unfold autoFillGoogleForm.
  destruct launches; simpl.
  2:{ intros [= <- <- <-]. split.
      - intros _. split; [|by left]. by intros [=]%list_elem_of_singleton.
      - by intros [|[|i]] text. }
  destruct (goto formUrl) as [pg|] eqn:Hgoto.
  2:{ intros [= <- <- <-]. split.
      - intros _. split; [|by left].
        rewrite !elem_of_cons. intros [?|[?|?%not_elem_of_nil]]; done.
      - by intros [|[|[|i]]] text. }
  case_decide as Hlen.
  { intros [= <- <- <-]. split; [done|]. by intros [|[|[|[|[|i]]]]] text. }
  assert (extractFormFields (document pg) ≠ []) as Hsome.
  { intros Heq. by rewrite Heq in Hlen. }
  destruct (generateFormData _ _ _ _) as [formData|]; intros [= <- <- <-].
  - split; [done|]. intros [|[|[|[|[|[|i]]]]]] text; try done.
    intros [= <-]. repeat split; try done. by exists pg.
  - split.
    + intros _. split; [|by right]. rewrite !elem_of_cons.
      intros [?|[?|[?|[?|?%not_elem_of_nil]]]]; done.
    + intros [|[|[|[|[|i]]]]] text; try done.
      intros [= <-]. repeat split; try done. by exists pg.
Qed.

Lemma thrown_run_applies_nothing_witness :
  autoFillGoogleForm true (λ _, Some (freshPage colorForm))
    (λ _, None) (λ _, Some ∅) "https://forms.example/f" None
  = (Thrown,
     [Launch; Navigate "https://forms.example/f"; Discover;
      AskModel (prompt (extractFormFields colorForm) None)],
     Some (freshPage colorForm))
  ∧ Apply ∉ [Launch; Navigate "https://forms.example/f"; Discover;
             AskModel (prompt (extractFormFields colorForm) None)].
Proof.
  assert (autoFillGoogleForm true (λ _, Some (freshPage colorForm))
            (λ _, None) (λ _, Some ∅) "https://forms.example/f" None
          = (Thrown,
             [Launch; Navigate "https://forms.example/f"; Discover;
              AskModel (prompt (extractFormFields colorForm) None)],
             Some (freshPage colorForm))) as Hrun.
  { unfold autoFillGoogleForm. simpl.
    by rewrite extractFormFields_colorForm. }
  split; [exact Hrun|].
  exact (proj1 (proj1 (thrown_run_applies_nothing _ _ _ _ _ _ _ _ _ Hrun)
                  eq_refl)).
Defined.

(** ** What the model is shown *)

Lemma prefix_spec t s : String.prefix t s = true ↔ ∃ b, s = t +:+ b.
Proof.
  revert s. induction t as [|c t IH]; intros [|d s]; simpl.
  - split; [intros _; by exists ""|done].
  - split; [intros _; by exists (String d s)|done].
  - split; [done|]. intros [b Hb]. by rewrite append_cons in Hb.
  - destruct (ascii_dec c d) as [->|Hcd].
    + rewrite IH. split; intros [b Hb]; exists b.
      * by rewrite append_cons, Hb.
      * rewrite append_cons in Hb. by injection Hb.
    + split; [done|]. intros [b Hb]. rewrite append_cons in Hb.
      by injection Hb as -> _.
Qed.

Lemma includes_cons c s t :
  includes (String c s) t
  = if String.prefix t (String c s) then true else includes s t.
Proof. reflexivity. Qed.

(** [includes] is the substring test. *)
Lemma includes_spec s t :
  includes s t = true ↔ ∃ a b, s = a +:+ t +:+ b.
Proof.
  split.
  - induction s as [|c s IH].
    + destruct t; [|done]. intros _. by exists "", "".
    + rewrite includes_cons.
      destruct (String.prefix t (String c s)) eqn:Hpre.
      * apply prefix_spec in Hpre as [b Hb]. intros _. by exists "", b.
      * intros (a & b & ->)%IH. by exists (String c a), b.
  - intros (a & b & ->). induction a as [|c a IH].
    + assert (String.prefix t (t +:+ b) = true) as Hpre
        by (apply prefix_spec; by exists b).
      change ("" +:+ t +:+ b) with (t +:+ b).
      destruct (t +:+ b) eqn:Heq.
      * by destruct t.
      * by rewrite includes_cons, Hpre.
    + rewrite append_cons, includes_cons, IH. by destruct (String.prefix _ _).
Qed.

Lemma includes_append a t b : includes (a +:+ t +:+ b) t = true.
Proof. apply includes_spec. by exists a, b. Qed.

Lemma join_includes sep (l : list string) x :
  x ∈ l → ∃ a b, join sep l = a +:+ x +:+ b.
Proof.
  induction l as [|y l IH]; [by intros ?%not_elem_of_nil|].
  intros [->|Hx]%elem_of_cons.
  - destruct l as [|z l]; simpl.
    + exists "", "". by rewrite append_empty_r.
    + by exists "", (sep +:+ join sep (z :: l)).
  - destruct (IH Hx) as (a & b & Heq). destruct l as [|z l].
    { by apply not_elem_of_nil in Hx. }
    exists (y +:+ sep +:+ a), b.
    change (join sep (y :: z :: l)) with (y +:+ sep +:+ join sep (z :: l)).
    by rewrite Heq, !append_assoc.
Qed.

(** X16.  The prompt sent to the model shows every discovered field:
    it contains the description line of each descriptor, and that line
    contains the descriptor's kind in upper case, its label between
    quotes, and each of its options. *)
Theorem prompt_shows_every_field fields context f :
  f ∈ fields →
  includes (prompt fields context) (fieldDescription f) = true
  ∧ includes (fieldDescription f) (toUpperCase (type f)) = true
  ∧ includes (fieldDescription f) (quoted (label f)) = true
  ∧ ∀ opts o, options f = Some opts → o ∈ opts →
      includes (fieldDescription f) o = true.
Proof.
  intros Hf. split; [|split; [|split]].
  - assert (fieldDescription f ∈ fieldDescription <$> fields) as Hd
      by (by apply list_elem_of_fmap_2).
    destruct (join_includes nl _ _ Hd) as (a & b & Hjoin).
    unfold prompt.
    match goal with
    | |- includes (join nl ?l) _ = true =>
        assert (join nl (fieldDescription <$> fields) ∈ l) as Hin
          by (rewrite !elem_of_cons; tauto);
        destruct (join_includes nl l _ Hin) as (a' & b' & ->)
    end.
    rewrite Hjoin, !append_assoc, <- (append_assoc a' a).
    apply includes_append.
  - unfold fieldDescription. apply (includes_append "- ").
  - unfold fieldDescription.
    rewrite <- (append_assoc "- "), <- (append_assoc _ ": ").
    apply includes_append.
  - intros opts o Hopts Ho. unfold fieldDescription. rewrite Hopts.
    destruct (join_includes ", " opts o Ho) as (a & b & ->).
    apply includes_spec.
    exists ("- " +:+ toUpperCase (type f) +:+ ": " +:+ quoted (label f)
            +:+ (if required f then " (required)" else "")
            +:+ " Options: [" +:+ a), (b +:+ "]").
    by rewrite !append_assoc.
Qed.

Lemma prompt_shows_every_field_witness :
  colorRadios ∈ extractFormFields colorForm
  ∧ fieldDescription colorRadios
    = "- RADIO: " +:+ quoted "Favorite color"
      +:+ " Options: [Red, Green, Blue]"
  ∧ includes (prompt (extractFormFields colorForm) None)
             (fieldDescription colorRadios) = true.
Proof.
  assert (colorRadios ∈ extractFormFields colorForm) as Hf.
  { rewrite extractFormFields_colorForm. by left. }
  split; [exact Hf|]. split; [by vm_compute|].
  exact (proj1 (prompt_shows_every_field _ None colorRadios Hf)).
Defined.

(** ** Selects *)

(** X17.  A select descriptor offers the option texts, but the select
    script assigns by option value.  When the value is offered and some
    select's inferred label matches, the first matching select is
    assigned the value if one of its options has that value, and the
    empty value (no option selected) otherwise; one [change] event is
    dispatched on it.  When no option carries a value attribute, an
    option text of that select is assigned as it is. *)
Theorem select_application_assigns_by_option_value field value pg q :
  type field = "select" →
  offers field value = true →
  q ∈ documentQuerySelectorAll (document pg) selectControl →
  matchesEitherWay (SelectScript.findLabelText (document pg) q) (label field)
  = true →
  ∃ select,
    (select = q ∨ precedes select q)
    ∧ select ∈ documentQuerySelectorAll (document pg) selectControl
    ∧ matchesEitherWay (SelectScript.findLabelText (document pg) select)
                       (label field) = true
    ∧ dirtyValue (fillField field value pg)
      = <[select :=
            if bool_decide (toString value
                            ∈ optionValueProperty (document pg)
                                <$> selectOptions (document pg) select)
            then toString value else ""]> (dirtyValue pg)
    ∧ dispatched (fillField field value pg)
      = dispatched pg ++ [(select, "change")]
    ∧ checkedness (fillField field value pg) = checkedness pg
    ∧ ((∀ o, o ∈ selectOptions (document pg) select →
             getAttribute (document pg) o "value" = None) →
       toString value ∈ optionTextProperty (document pg)
                          <$> selectOptions (document pg) select →
       dirtyValue (fillField field value pg)
       = <[select := toString value]> (dirtyValue pg)).
Proof.
  intros Hty Hoffers Hq Hmatch.
  destruct (find_is_Some
              (λ el, matchesEitherWay
                       (SelectScript.findLabelText (document pg) el)
                       (label field))
              (documentQuerySelectorAll (document pg) selectControl)
              q Hq Hmatch) as [select Hfind].
  destruct (find_first_in_order _ _ select
              (documentQuerySelectorAll_sorted _ _) Hfind)
    as (Hin & Hsel & Hfirst).
  exists select. split.
  { destruct (Hfirst q Hq Hmatch) as [->|?]; auto. }
  split; [done|]. split; [done|].
  assert (fillField field value pg
          = SelectScript.run (label field) (toString value) pg) as ->.
  { unfold fillField. rewrite Hty. simpl. by rewrite Hoffers. }
  unfold SelectScript.run, SelectScript.find. rewrite Hfind. simpl.
  unfold SelectScript.assigned. repeat split; try done.
  intros Hplain Htext. rewrite bool_decide_eq_true_2; [done|].
  apply list_elem_of_fmap in Htext as (o & -> & Ho).
  apply list_elem_of_fmap. exists o. split; [|done].
  unfold optionValueProperty. by rewrite (Hplain o Ho).
Qed.

Lemma select_application_assigns_by_option_value_witness :
  [0; 0; 4] ∈ documentQuerySelectorAll planForm selectControl
  ∧ offers planTerm (JString "Monthly") = true
  ∧ optionValueProperty planForm <$> selectOptions planForm [0; 0; 4]
    = ["m"; "Yearly"]
  ∧ dirtyValue (fillField planTerm (JString "Monthly") (freshPage planForm))
    = <[ [0; 0; 4] := "" ]> ∅
  ∧ ∃ select,
      (select = [0; 0; 4] ∨ precedes select [0; 0; 4])
      ∧ dispatched
          (fillField planTerm (JString "Monthly") (freshPage planForm))
        = dispatched (freshPage planForm) ++ [(select, "change")].
Proof.
  assert ([0; 0; 4] ∈ documentQuerySelectorAll planForm selectControl) as Hq.
  { apply elem_of_documentQuerySelectorAll. by vm_compute. }
  split; [exact Hq|]. split; [by vm_compute|]. split; [by vm_compute|].
  split; [by vm_compute|].
  destruct (select_application_assigns_by_option_value planTerm
              (JString "Monthly") (freshPage planForm) [0; 0; 4])
    as (select & Hord & _ & _ & _ & Hev & _);
    [done|by vm_compute|exact Hq|by vm_compute|].
  exists select. by split.
Defined.

(** ** The flat variant *)

Lemma pushAt_other key text (groups : list (string * FormField)) :
  key ∉ groups.*1 → Flat.pushAt key text <$> groups = groups.
Proof.
  induction groups as [|[k g] groups IH]; [done|].
  rewrite !fmap_cons. intros [Hne Hk]%not_elem_of_cons.
  rewrite IH by done. unfold Flat.pushAt. simpl in *.
  by rewrite decide_False.
Qed.

Lemma optionCount_cons f fields :
  optionCount (f :: fields)
  = (length (default [] (options f)) + optionCount fields)%nat.
Proof. reflexivity. Qed.

Lemma optionCount_app fields1 fields2 :
  optionCount (fields1 ++ fields2)
  = (optionCount fields1 + optionCount fields2)%nat.
Proof.
  induction fields1 as [|f fields1 IH]; [done|].
  rewrite <- app_comm_cons, !optionCount_cons, IH. lia.
Qed.

Lemma optionCount_after_push key text (groups : list (string * FormField)) :
  NoDup groups.*1 → key ∈ groups.*1 →
  optionCount (Flat.pushAt key text <$> groups).*2
  = S (optionCount groups.*2).
Proof.
  induction groups as [|[k g] groups IH].
  - by intros _ ?%not_elem_of_nil.
  - rewrite !fmap_cons, !optionCount_cons.
    intros [Hk Hnodup]%NoDup_cons [Heq|Hin]%elem_of_cons; simpl in *.
    + subst k. rewrite pushAt_other by done.
      unfold Flat.pushAt. simpl. rewrite decide_True by done. simpl.
      rewrite length_app. simpl. lia.
    + rewrite IH by done. unfold Flat.pushAt. simpl.
      rewrite decide_False; [|by intros ->]. simpl. lia.
Qed.

Lemma keys_after_push key text (groups : list (string * FormField)) :
  (Flat.pushAt key text <$> groups).*1 = groups.*1.
Proof.
  induction groups as [|[k g] groups IH]; [done|].
  rewrite !fmap_cons, IH. unfold Flat.pushAt. simpl. by case_decide.
Qed.

Lemma filter_snoc {A} (P : A → Prop) `{∀ x, Decision (P x)} (l : list A) x :
  filter P (l ++ [x]) = filter P l ++ (if decide (P x) then [x] else []).
Proof. by rewrite filter_app, filter_cons, filter_nil. Qed.

Lemma head_snoc_Some {A} (l : list A) x y :
  head l = Some y → head (l ++ [x]) = Some y.
Proof. by destruct l. Qed.

(** One radio more keeps the map what it should be. *)
Lemma addRadio_groupsOf doc processed groups r :
  groupsOf doc processed groups →
  groupsOf doc (processed ++ [r]) (Flat.addRadio doc groups r).
Proof.
  intros (Hnodup & Hgroups & Hkeys & Hsum). unfold Flat.addRadio.
  set (key := nameProperty doc r).
  set (present := if bool_decide (key ∈ groups.*1) then groups
                  else groups ++ [(key, Flat.newGroup doc r)]).
  assert (NoDup present.*1 ∧ key ∈ present.*1
          ∧ (∀ k g, (k, g) ∈ present →
               (k, g) ∈ groups
               ∨ (k = key ∧ g = Flat.newGroup doc r ∧ key ∉ groups.*1))
          ∧ (∀ k, k ∈ groups.*1 → k ∈ present.*1)
          ∧ optionCount present.*2 = length processed)
    as (Hnodup' & Hkey & Hfrom & Hsub & Hsum').
  { unfold present. case_bool_decide as Hin.
    - repeat split; auto.
    - rewrite !fmap_app, optionCount_app. simpl. repeat split.
      + apply NoDup_app. repeat split; [done| |apply NoDup_singleton].
        by intros k Hk ->%list_elem_of_singleton.
      + apply elem_of_app. right. by left.
      + intros k g [?|Hnew%list_elem_of_singleton]%elem_of_app; [by left|].
        right. by injection Hnew as -> ->.
      + intros k ?. apply elem_of_app. by left.
      + lia. }
  clearbody present. split; [|split; [|split]].
  - by rewrite keys_after_push.
  - intros k g (entry & Heq & Hentry)%list_elem_of_fmap.
    destruct entry as [k0 g0]. unfold Flat.pushAt in Heq. simpl in Heq.
    rewrite filter_snoc. fold key.
    destruct (Hfrom k0 g0 Hentry) as [Hold|(-> & -> & Hnew)].
    + destruct (Hgroups k0 g0 Hold) as (Hn & Ht & Ho & Hh & Hl & Hr).
      case_decide as Hk; simplify_eq/=.
      * rewrite decide_True by done. rewrite Ho. simpl.
        rewrite fmap_app. repeat split; try done. by apply head_snoc_Some.
      * rewrite decide_False by done. by rewrite app_nil_r.
    + rewrite decide_True in Heq by done. simplify_eq/=.
      rewrite decide_True by done.
      assert (filter (λ r0, nameProperty doc r0 = key) processed = []) as ->.
      { apply filter_none, Forall_forall. intros r0 Hr0 Heq.
        apply Hnew. rewrite <- Heq. by apply Hkeys. }
      done.
  - rewrite keys_after_push.
    intros r0 [Hr0|Hr0%list_elem_of_singleton]%elem_of_app.
    + by apply Hsub, Hkeys.
    + by subst r0.
  - rewrite optionCount_after_push by done.
    rewrite Hsum', length_app. simpl. lia.
Qed.

Lemma foldl_addRadio_groupsOf doc rest processed groups :
  groupsOf doc processed groups →
  groupsOf doc (processed ++ rest) (foldl (Flat.addRadio doc) groups rest).
Proof.
  revert processed groups.
  induction rest as [|r rest IH]; intros processed groups Hinv; simpl.
  - by rewrite app_nil_r.
  - replace (processed ++ r :: rest) with ((processed ++ [r]) ++ rest)
      by (by rewrite <- app_assoc).
    by apply IH, addRadio_groupsOf.
Qed.

Lemma radioGroups_groupsOf doc :
  groupsOf doc (documentQuerySelectorAll doc radioInput)
           (Flat.radioGroups doc).
Proof.
  apply (foldl_addRadio_groupsOf doc _ [] []).
  split; [apply NoDup_nil_2|]. split; [|split; [|done]].
  - by intros key group ?%not_elem_of_nil.
  - by intros r ?%not_elem_of_nil.
Qed.

Lemma flat_fields_radio doc :
  filter (λ f, type f = "radio") (Flat.extractFormFields doc)
  = (Flat.radioGroups doc).*2.
Proof.
  destruct (radioGroups_groupsOf doc) as (_ & Hgroups & _).
  unfold Flat.extractFormFields. rewrite !filter_app.
  rewrite (filter_none _ (imap (Flat.textField doc) _)),
          (filter_all _ (Flat.radioGroups doc).*2),
          (filter_none _ (imap (Flat.checkboxField doc) _)),
          (filter_none _ (imap (Flat.selectField doc) _)).
  - by rewrite app_nil_r.
  - by apply Forall_imap_intro.
  - by apply Forall_imap_intro.
  - apply Forall_forall. intros g ((k & g') & -> & Hg)%list_elem_of_fmap.
    by destruct (Hgroups k g' Hg) as (_ & ? & _).
  - apply Forall_imap_intro. intros i p _. simpl.
    by destruct (textKind_cases doc p) as [-> | ->].
Qed.

(** X18.  The flat discovery groups the radios of the document by
    their name: there is one radio descriptor per name in use, named by
    it, and its options are the texts ([value || label]) of the radios
    of that name in document order; it stands for the first of them and
    is labelled by [findGroupLabel] of that one.  So every radio
    contributes exactly one option to exactly one descriptor. *)
Theorem flat_radios_grouped_by_name doc :
  let radios := documentQuerySelectorAll doc radioInput in
  let groups := filter (λ f, type f = "radio")
                       (Flat.extractFormFields doc) in
  NoDup (name <$> groups)
  ∧ (∀ r, r ∈ radios → nameProperty doc r ∈ name <$> groups)
  ∧ Forall (λ g,
              options g
              = Some (Flat.radioOption doc
                        <$> filter (λ r, nameProperty doc r = name g) radios)
              ∧ head (filter (λ r, nameProperty doc r = name g) radios)
                = Some (element g)
              ∧ label g = findGroupLabel doc (element g))
           groups
  ∧ optionCount groups = length radios.
Proof.
  simpl. rewrite flat_fields_radio.
  destruct (radioGroups_groupsOf doc) as (Hnodup & Hgroups & Hkeys & Hcount).
  assert (name <$> (Flat.radioGroups doc).*2 = (Flat.radioGroups doc).*1)
    as Hnames.
  { apply list_eq. intros i. rewrite !list_lookup_fmap.
    destruct (Flat.radioGroups doc !! i) as [[k g]|] eqn:Hi; [|done].
    simpl. f_equal.
    apply (Hgroups k g), list_elem_of_lookup. eauto. }
  rewrite Hnames. split; [done|]. split; [done|]. split; [|done].
  apply Forall_forall. intros g ((k & g') & -> & Hg)%list_elem_of_fmap.
  destruct (Hgroups k g' Hg) as (<- & _ & Ho & Hh & Hl & _). by simpl.
Qed.

Example flat_radios_looseForm :
  (λ f, (name f, options f, element f))
    <$> Flat.extractFormFields looseForm
  = [("field_0", None, [0; 5]);
     ("size", Some ["S"; "L"], [0; 0]); ("color", Some ["red"], [0; 1]);
     ("checkbox_0", None, [0; 3]); ("select_0", Some ["Norway"], [0; 4])].
Proof. by vm_compute. Qed.

(** X19.  The flat discovery emits one descriptor for every typed text
    control, every checkbox and every select of the document, wherever
    they stand, each kind in document order, and labels each by
    [findLabelForInput]. *)
Theorem flat_discovery_covers_every_control doc :
  element <$> filter (λ f, type f = "text" ∨ type f = "textarea")
                     (Flat.extractFormFields doc)
  = documentQuerySelectorAll doc textControl
  ∧ element <$> filter (λ f, type f = "checkbox")
                       (Flat.extractFormFields doc)
    = documentQuerySelectorAll doc checkboxInput
  ∧ element <$> filter (λ f, type f = "select") (Flat.extractFormFields doc)
    = documentQuerySelectorAll doc selectControl
  ∧ Forall (λ f, type f ≠ "radio" →
                 label f = findLabelForInput doc (element f))
           (Flat.extractFormFields doc).
Proof.
  assert (∀ (h : nat → path → FormField) (l : list path),
            (∀ i p, element (h i p) = p) → element <$> imap h l = l)
    as Himap.
  { intros h l Hh. rewrite fmap_imap.
    rewrite (imap_ext _ (const id)) by (intros; apply Hh).
    by rewrite imap_const, list_fmap_id. }
  assert (Forall (λ f, type f = "radio") (Flat.radioGroups doc).*2) as Hradio.
  { rewrite <- flat_fields_radio. apply Forall_forall.
    by intros f [? _]%list_elem_of_filter. }
  assert (Forall (λ f, type f = "text" ∨ type f = "textarea")
                 (imap (Flat.textField doc)
                       (documentQuerySelectorAll doc textControl))) as Htext.
  { apply Forall_imap_intro. intros. apply textKind_cases. }
  assert (Forall (λ f, type f = "checkbox")
                 (imap (Flat.checkboxField doc)
                       (documentQuerySelectorAll doc checkboxInput)))
    as Hbox by (by apply Forall_imap_intro).
  assert (Forall (λ f, type f = "select")
                 (imap (Flat.selectField doc)
                       (documentQuerySelectorAll doc selectControl)))
    as Hselect by (by apply Forall_imap_intro).
  unfold Flat.extractFormFields. rewrite !filter_app. repeat split.
  - rewrite (filter_all _ _ Htext), !filter_none, !app_nil_r;
      [by apply Himap|..].
    + eapply Forall_impl; [exact Hselect|]. by intros f -> [?|?].
    + eapply Forall_impl; [exact Hbox|]. by intros f -> [?|?].
    + eapply Forall_impl; [exact Hradio|]. by intros f -> [?|?].
  - rewrite (filter_all _ _ Hbox).
    rewrite (filter_none _ (imap (Flat.textField doc) _)),
      (filter_none _ (Flat.radioGroups doc).*2),
      (filter_none _ (imap (Flat.selectField doc) _)).
    + rewrite app_nil_r. by apply Himap.
    + eapply Forall_impl; [exact Hselect|]. by intros f ->.
    + eapply Forall_impl; [exact Hradio|]. by intros f ->.
    + eapply Forall_impl; [exact Htext|]. by intros f [-> | ->].
  - rewrite (filter_all _ _ Hselect).
    rewrite (filter_none _ (imap (Flat.textField doc) _)),
      (filter_none _ (Flat.radioGroups doc).*2),
      (filter_none _ (imap (Flat.checkboxField doc) _)).
    + by apply Himap.
    + eapply Forall_impl; [exact Hbox|]. by intros f ->.
    + eapply Forall_impl; [exact Hradio|]. by intros f ->.
    + eapply Forall_impl; [exact Htext|]. by intros f [-> | ->].
  - rewrite !Forall_app. repeat split.
    + by apply Forall_imap_intro.
    + eapply Forall_impl; [exact Hradio|]. by intros f ->.
    + by apply Forall_imap_intro.
    + by apply Forall_imap_intro.
Qed.

(** X20.  The run of the flat variant has no check for an empty
    discovery: with no descriptor it still asks the model, with a
    prompt that lists no field, and throws if no mapping comes back;
    with a mapping it returns and the page is as it was loaded. *)
Theorem flat_run_asks_even_without_fields
    launches goto generateContent JSON_parse formUrl context pg :
  launches = true →
  goto formUrl = Some pg →
  Flat.extractFormFields (document pg) = [] →
  match generateFormData generateContent JSON_parse [] context with
  | Some formData =>
      Flat.autoFillGoogleForm launches goto generateContent JSON_parse
        formUrl context
      = (Returned,
         [Launch; Navigate formUrl; Discover; AskModel (prompt [] context);
          Apply],
         Some pg)
  | None =>
      Flat.autoFillGoogleForm launches goto generateContent JSON_parse
        formUrl context
      = (Thrown,
         [Launch; Navigate formUrl; Discover; AskModel (prompt [] context)],
         Some pg)
  end.
Proof.
  intros -> Hgoto Hnone. unfold Flat.autoFillGoogleForm. simpl.
  rewrite Hgoto, Hnone. by destruct (generateFormData _ _ _ _).
Qed.

Lemma flat_run_asks_even_without_fields_witness :
  Flat.extractFormFields emptyDocument = []
  ∧ Flat.autoFillGoogleForm true (λ _, Some (freshPage emptyDocument))
      (λ _, None) (λ _, Some ∅) "https://forms.example/f" None
    = (Thrown,
       [Launch; Navigate "https://forms.example/f"; Discover;
        AskModel (prompt [] None)],
       Some (freshPage emptyDocument)).
Proof.
  split; [by vm_compute|].
  apply (flat_run_asks_even_without_fields true
           (λ _, Some (freshPage emptyDocument)) (λ _, None) (λ _, Some ∅)
           "https://forms.example/f" None (freshPage emptyDocument)
           eq_refl eq_refl).
  by vm_compute.
Defined.

(** X21.  The two variants differ in the radio script only: a list of
    descriptors without a radio descriptor is applied by both to the
    same effect. *)
Theorem variants_apply_alike_but_radios fields formData pg :
  Forall (λ f, type f ≠ "radio") fields →
  Flat.fillForm fields formData pg = fillForm fields formData pg.
Proof.
  intros Hfields. revert pg.
  induction Hfields as [|f fields Hf _ IH]; intros pg; [done|].
  simpl. destruct (nullish _); [apply IH|].
  assert (Flat.fillField f (propertyOf formData (label f)) pg
          = fillField f (propertyOf formData (label f)) pg) as ->; [|apply IH].
  unfold Flat.fillField, fillField.
  repeat case_decide; done.
Qed.

Lemma variants_apply_alike_but_radios_witness :
  Forall (λ f, type f ≠ "radio") [agreeCheckbox; nameInput]
  ∧ Flat.fillForm [agreeCheckbox; nameInput]
      {[ "Favorite color - Agree" := JBool true ]} (freshPage colorForm)
    = fillForm [agreeCheckbox; nameInput]
        {[ "Favorite color - Agree" := JBool true ]} (freshPage colorForm).
Proof.
  assert (Forall (λ f, type f ≠ "radio") [agreeCheckbox; nameInput]) as Hf
    by (repeat constructor; done).
  split; [exact Hf|]. by apply variants_apply_alike_but_radios.
Defined.

(** X22.  In the flat variant a radio whose value equals the wanted
    value passes the first half of the radio script's test whatever
    its label says.  When the value is offered and the group label
    text of such a radio contains the descriptor's label, the script
    clicks it, or an earlier radio that passes the test. *)
Theorem flat_radio_found_by_value field value pg q :
  type field = "radio" →
  offers field value = true →
  q ∈ documentQuerySelectorAll (document pg) radioInput →
  choiceValueProperty (document pg) q = toString value →
  includes (Flat.RadioScript.findGroupLabelText (document pg) q)
           (label field) = true →
  ∃ radio,
    (radio = q ∨ precedes radio q)
    ∧ radio ∈ documentQuerySelectorAll (document pg) radioInput
    ∧ (includes (Flat.RadioScript.findLabelText (document pg) radio)
                (toString value) = true
       ∨ choiceValueProperty (document pg) radio = toString value)
    ∧ includes (Flat.RadioScript.findGroupLabelText (document pg) radio)
               (label field) = true
    ∧ Flat.fillField field value pg = click radio pg.
Proof.
  intros Hty Hoffers Hq Hvalue Hgroup.
  assert (Flat.RadioScript.test (document pg) (label field) (toString value) q
          = true) as Htest.
  { unfold Flat.RadioScript.test. rewrite Hgroup, bool_decide_eq_true_2 by done.
    by rewrite orb_true_r. }
  destruct (find_is_Some _ _ q Hq Htest) as [radio Hfind].
  destruct (find_first_in_order _ _ radio
              (documentQuerySelectorAll_sorted _ _) Hfind)
    as (Hin & [Hr1 Hr2]%andb_true_iff & Hfirst).
  exists radio. split.
  { destruct (Hfirst q Hq Htest) as [->|?]; auto. }
  split; [done|]. split; [|split; [done|]].
  - apply orb_true_iff in Hr1 as [?|?%bool_decide_eq_true]; auto.
  - unfold Flat.fillField. rewrite Hty. simpl. rewrite Hoffers.
    unfold Flat.RadioScript.run, Flat.RadioScript.find. by rewrite Hfind.
Qed.

Lemma flat_radio_found_by_value_witness :
  sizeRadios ∈ Flat.extractFormFields looseForm
  ∧ [0; 2] ∈ documentQuerySelectorAll looseForm radioInput
  ∧ choiceValueProperty looseForm [0; 2] = "L"
  ∧ Flat.fillField sizeRadios (JString "L") (freshPage looseForm)
    = click [0; 2] (freshPage looseForm)
  ∧ ∃ radio,
      (radio = [0; 2] ∨ precedes radio [0; 2])
      ∧ Flat.fillField sizeRadios (JString "L") (freshPage looseForm)
        = click radio (freshPage looseForm).
Proof.
  assert ([0; 2] ∈ documentQuerySelectorAll looseForm radioInput) as Hq.
  { apply elem_of_documentQuerySelectorAll. by vm_compute. }
  split.
  { assert (Flat.extractFormFields looseForm !! 1 = Some sizeRadios) as Hf
      by (by vm_compute).
    apply list_elem_of_lookup. eauto. }
  split; [exact Hq|]. split; [by vm_compute|]. split; [by vm_compute|].
  destruct (flat_radio_found_by_value sizeRadios (JString "L")
              (freshPage looseForm) [0; 2])
    as (radio & Hord & _ & _ & _ & Hclick);
    [done|by vm_compute|exact Hq|by vm_compute|by vm_compute|].
  exists radio. by split.
Defined.

(** ** Discovery and application together *)

Lemma orElse_truthy a b s : truthy a = Some s → orElse a b = s.
Proof. unfold orElse. by intros ->. Qed.

Lemma truthy_fmap_None {A} (f : A → string) (a : option A) :
  a = None → truthy (f <$> a) = None.
Proof. by intros ->. Qed.

Lemma includes_suffix a b t : includes (a +:+ b +:+ t) t = true.
Proof.
  apply includes_spec. exists (a +:+ b), "".
  by rewrite append_empty_r, append_assoc.
Qed.

(** X23.  A checkbox descriptor of the container pass is found again by
    the checkbox script, provided the checkbox has no label bound by
    [for] and either lies in a [label] element or has a non-empty
    [aria-label]: the script then finds that checkbox or an earlier one
    whose label matches as well. *)
Theorem checkbox_descriptor_is_found_again doc containerIndex container
    checkboxIndex checkbox :
  querySelectorAll doc container checkboxInput !! checkboxIndex
  = Some checkbox →
  labelByFor doc checkbox = None →
  is_Some (closest doc labelElement checkbox)
  ∨ is_Some (truthy (getAttribute doc checkbox "aria-label")) →
  ∃ field found,
    checkboxFields doc containerIndex container !! checkboxIndex = Some field
    ∧ element field = checkbox
    ∧ CheckboxScript.find doc (label field) = Some found
    ∧ (found = checkbox ∨ precedes found checkbox).
Proof.
  intros Hlookup Hfor Hlabelled.
  eexists. unfold checkboxFields. rewrite list_lookup_imap, Hlookup. simpl.
  set (fieldLabel := questionTextAt doc container containerIndex +:+ " - "
                     +:+ checkboxText doc checkbox checkboxIndex).
  assert (checkbox ∈ documentQuerySelectorAll doc checkboxInput) as Hin.
  { apply elem_of_documentQuerySelectorAll.
    apply list_elem_of_lookup_2, elem_of_querySelectorAll in Hlookup.
    tauto. }
  assert (matchesEitherWay (CheckboxScript.findLabelText doc checkbox)
                           fieldLabel = true) as Hmatch.
  { unfold matchesEitherWay. apply orb_true_iff. right.
    unfold CheckboxScript.findLabelText, labelByAncestor. rewrite Hfor.
    unfold fieldLabel, checkboxText.
    destruct (closest doc labelElement checkbox) as [wrapping|] eqn:Hclosest;
      simpl.
    - unfold orElse at 1, truthy at 1. simpl.
      case_decide as Hempty; [rewrite Hempty; apply includes_empty|].
      simpl. apply includes_suffix.
    - destruct Hlabelled as [[? ?]|[ariaLabel Haria]]; [done|].
      rewrite Haria. unfold orElse at 1. simpl.
      rewrite (orElse_truthy _ _ _ Haria).
      apply includes_suffix. }
  destruct (find_is_Some
              (λ el, matchesEitherWay (CheckboxScript.findLabelText doc el)
                                      fieldLabel)
              _ checkbox Hin Hmatch) as [found Hfind].
  destruct (find_first_in_order _ _ found
              (documentQuerySelectorAll_sorted _ _) Hfind)
    as (_ & _ & Hfirst).
  exists found. split; [reflexivity|]. split; [done|]. split; [exact Hfind|].
  destruct (Hfirst checkbox Hin Hmatch) as [->|?]; auto.
Qed.

Lemma checkbox_descriptor_is_found_again_witness :
  querySelectorAll colorForm [0; 0] checkboxInput !! 0%nat = Some [0; 0; 4; 0]
  ∧ ∃ field found,
      checkboxFields colorForm 0 [0; 0] !! 0%nat = Some field
      ∧ element field = [0; 0; 4; 0]
      ∧ CheckboxScript.find colorForm (label field) = Some found
      ∧ (found = [0; 0; 4; 0] ∨ precedes found [0; 0; 4; 0]).
Proof.
  split; [by vm_compute|].
  apply (checkbox_descriptor_is_found_again colorForm 0 [0; 0] 0 [0; 0; 4; 0]);
    [by vm_compute|by vm_compute|].
  left. vm_compute. by eexists.
Defined.

(** X24.  In a container that has a non-empty title and is the nearest
    container of one of its radios, the option text that discovery
    recorded for that radio is accepted by application: the descriptor
    of the container offers it, and applying it clicks that radio or an
    earlier radio passing the same test. *)
Theorem radio_option_is_found_again pg containerIndex container q :
  closest (document pg) questionContainer q = Some container →
  q ∈ querySelectorAll (document pg) container radioInput →
  is_Some (truthy (trimmedText (document pg)
                     <$> querySelector (document pg) container questionTitle)) →
  ∃ group radio,
    radioGroup (document pg) containerIndex container = [group]
    ∧ offers group (JString (radioOptionText (document pg) q)) = true
    ∧ (radio = q ∨ precedes radio q)
    ∧ radio ∈ documentQuerySelectorAll (document pg) radioInput
    ∧ fillField group (JString (radioOptionText (document pg) q)) pg
      = click radio pg.
Proof.
  intros Hclosest Hq [title Htitle].
  set (doc := document pg) in *.
  set (fieldLabel := questionTextAt doc container containerIndex).
  set (fieldValue := radioOptionText doc q).
  set (test := λ el,
         (includes (RadioScript.ownLabel doc el) fieldValue
          || includes fieldValue (RadioScript.ownLabel doc el))
         && includes (RadioScript.questionText doc el) fieldLabel).
  assert (q ∈ documentQuerySelectorAll doc radioInput) as Hin.
  { apply elem_of_documentQuerySelectorAll.
    apply elem_of_querySelectorAll in Hq. tauto. }
  assert (test q = true) as Hte.
  { unfold test. apply andb_true_iff. split.
    - unfold fieldValue, RadioScript.ownLabel, radioOptionText.
      unfold orElse.
      destruct (truthy (trimmedText doc <$> closest doc labelElement q))
        as [own|]; simpl.
      + by rewrite includes_refl.
      + rewrite includes_empty. apply orb_true_r.
    - unfold RadioScript.questionText, fieldLabel, questionTextAt.
      rewrite Hclosest. simpl.
      rewrite !(orElse_truthy _ _ _ Htitle). apply includes_refl. }
  destruct (find_is_Some test _ q Hin Hte) as [radio Hfind].
  destruct (find_first_in_order _ _ radio
              (documentQuerySelectorAll_sorted _ _) Hfind)
    as (Hradio & _ & Hfirst).
  unfold radioGroup. fold doc.
  destruct (querySelectorAll doc container radioInput) as [|first rest]
    eqn:Hradios; [by apply not_elem_of_nil in Hq|].
  set (group := {| type := "radio"; label := fieldLabel;
                   name := "question_" +:+ pretty containerIndex;
                   required := false;
                   options := Some (radioOptionText doc <$> first :: rest);
                   element := first |}).
  assert (offers group (JString fieldValue) = true) as Hoffers.
  { apply bool_decide_eq_true. change (toString (JString fieldValue))
      with (radioOptionText doc q).
    apply list_elem_of_fmap. by exists q. }
  exists group, radio. split; [reflexivity|]. split; [exact Hoffers|]. split.
  { destruct (Hfirst q Hin Hte) as [->|?]; auto. }
  split; [exact Hradio|].
  unfold fillField. rewrite Hoffers.
  change (type group) with "radio". change (label group) with fieldLabel.
  destruct (decide ("radio" = "text" ∨ "radio" = "textarea"))
    as [[?|?]|_]; [done|done|].
  destruct (decide ("radio" = "radio")); [|done].
  unfold RadioScript.run, RadioScript.find. simpl. fold doc test.
  by rewrite Hfind.
Qed.

Lemma radio_option_is_found_again_witness :
  radioOptionText colorForm [0; 0; 2; 0] = "Green"
  ∧ ∃ group radio,
      radioGroup colorForm 0 [0; 0] = [group]
      ∧ offers group (JString (radioOptionText colorForm [0; 0; 2; 0])) = true
      ∧ (radio = [0; 0; 2; 0] ∨ precedes radio [0; 0; 2; 0])
      ∧ radio ∈ documentQuerySelectorAll colorForm radioInput
      ∧ fillField group (JString (radioOptionText colorForm [0; 0; 2; 0]))
                  (freshPage colorForm)
        = click radio (freshPage colorForm).
Proof.
  split; [by vm_compute|].
  apply (radio_option_is_found_again (freshPage colorForm) 0 [0; 0]
           [0; 0; 2; 0]).
  - by vm_compute.
  - apply elem_of_querySelectorAll. split; [by vm_compute|].
    by exists [2; 0].
  - vm_compute. by eexists.
Defined.

(** X25.  Text around the JSON object in the model's answer is
    tolerated: when the answer has an opening brace, and the part from
    the first opening brace to the last closing brace parses, the run
    applies that mapping to the discovered descriptors and returns. *)
Theorem answer_with_surrounding_text_is_applied
    launches goto generateContent JSON_parse formUrl context pg
    pre body post formData :
  launches = true →
  goto formUrl = Some pg →
  extractFormFields (document pg) ≠ [] →
  generateContent (prompt (extractFormFields (document pg)) context)
  = Some (pre +:+ "{" +:+ body +:+ "}" +:+ post) →
  occurs "{" pre = false →
  occurs "}" post = false →
  JSON_parse ("{" +:+ body +:+ "}") = Some formData →
  autoFillGoogleForm launches goto generateContent JSON_parse formUrl context
  = (Returned,
     [Launch; Navigate formUrl; Discover;
      AskModel (prompt (extractFormFields (document pg)) context); Apply],
     Some (fillForm (extractFormFields (document pg)) formData pg)).
Proof.
  intros -> Hgoto Hsome Hanswer Hpre Hpost Hparse.
  unfold autoFillGoogleForm. simpl. rewrite Hgoto.
  rewrite decide_False by (by destruct (extractFormFields (document pg))).
  assert (generateFormData generateContent JSON_parse
            (extractFormFields (document pg)) context = Some formData)
    as ->; [|done].
  unfold generateFormData. rewrite Hanswer. simpl.
  by rewrite jsonMatch_braces.
Qed.

Lemma answer_with_surrounding_text_is_applied_witness :
  extractFormFields colorForm ≠ []
  ∧ autoFillGoogleForm true (λ _, Some (freshPage colorForm))
      (λ _, Some "Here: {} } done {")
      (λ m, if decide (m = "{} }") then Some ∅ else None)
      "https://forms.example/f" None
    = (Returned,
       [Launch; Navigate "https://forms.example/f"; Discover;
        AskModel (prompt (extractFormFields colorForm) None); Apply],
       Some (fillForm (extractFormFields colorForm) ∅ (freshPage colorForm))).
Proof.
  assert (extractFormFields colorForm ≠ []) as Hsome
    by (by rewrite extractFormFields_colorForm).
  split; [exact Hsome|].
  apply (answer_with_surrounding_text_is_applied true
           (λ _, Some (freshPage colorForm))
           (λ _, Some "Here: {} } done {")
           (λ m, if decide (m = "{} }") then Some ∅ else None)
           "https://forms.example/f" None (freshPage colorForm)
           "Here: " "} " " done {" ∅ eq_refl eq_refl Hsome);
    reflexivity.
Defined.
